(** * Task2.cpp: multithreaded run-length file compressor

    A shallow embedding of [compressRLEChunk], [decompressRLEChunk],
    [compressFile] and [decompressFile], followed by the properties of the
    chunked codec.

    Modelling conventions.
    - A [char] is its 8-bit pattern, an integer in [0, 256).  This is the
      same on platforms whose [char] is signed and on those where it is
      unsigned: [static_cast<char>] keeps the low eight bits of its operand
      and [static_cast<unsigned char>] reads the pattern as a number.
    - [size_t] is 64 bits wide and [unsigned int] 32 bits wide; every
      arithmetic operation of the source on these types is written with its
      wrap-around ([size_t], [uint]).
    - A [std::vector<char>] is a [list char]; [v[i]] past the end is
      undefined behaviour in C++ and is the result [OutOfBounds] here.
    - The [while] and [for] loops are bounded by a fuel argument; running
      out of it is the separate result [OutOfFuel], which is shown never to
      happen.
    - Worker threads are modelled by the order in which they complete: a
      schedule is a list of thread indices, and each thread stores its
      result in its own slot of the shared vector of chunks.
    - The console is reduced to the diagnostics sent to [std::cerr]; file
      output is the vector handed to [writeFile]. *)

From stdpp Require Import base list numbers strings gmap.
From Stdlib Require Import ZArith Lia.

Local Open Scope Z_scope.

(** ** Machine integers and vectors *)

Definition char : Type := Z.

Definition size_t (x : Z) : Z := x mod 2 ^ 64.
Definition uint (x : Z) : Z := x mod 2 ^ 32.

(** [static_cast<char>(n)] and [static_cast<unsigned char>(c)]. *)
Definition to_char (n : Z) : char := n mod 256.
Definition to_uchar (c : char) : Z := c mod 256.

(** The largest size a [std::vector<char>] can have. *)
Definition max_size : Z := 2 ^ 63 - 1.

Definition size (v : list char) : Z := Z.of_nat (length v).

Definition fits (v : list char) : Prop := size v <= max_size.

(** The character literals ['C'] and ['U']. *)
Definition chr_C : char := 67.
Definition chr_U : char := 85.

Inductive result (A : Type) : Type :=
| Ok (a : A)
| OutOfBounds
| OutOfFuel.
Arguments Ok {A} a.
Arguments OutOfBounds {A}.
Arguments OutOfFuel {A}.

Definition bind {A B : Type} (m : result A) (f : A -> result B) : result B :=
  match m with
  | Ok a => f a
  | OutOfBounds => OutOfBounds
  | OutOfFuel => OutOfFuel
  end.

#[global] Instance result_bind : MBind result := fun _ _ f m => bind m f.
#[global] Instance result_ret : MRet result := fun _ a => Ok a.

(** [v[i]] *)
Definition at_ (v : list char) (i : Z) : result char :=
  match v !! Z.to_nat i with
  | Some c => Ok c
  | None => OutOfBounds
  end.

(** [std::vector<char>(p + first, p + last)] for [p] the start of [v]. *)
Definition subvector (v : list char) (first last : Z) : list char :=
  take (Z.to_nat (last - first)) (drop (Z.to_nat first) v).

Definition range_ctor (v : list char) (first last : Z) : result (list char) :=
  if (first <=? last) && (last <=? size v)
  then Ok (subvector v first last)
  else OutOfBounds.

(** ** Diagnostics and outcomes *)

Inductive diagnostic : Type :=
| InvalidChunkSize   (* Invalid compressed chunk size *)
| EmptyInput         (* Failed to read input file or file is empty. *)
| EmptyContainer     (* Input file is empty or failed to read. *)
| UnknownHeader.     (* Unknown file format header. *)

Record outcome : Type := Outcome {
  cerr : list diagnostic;
  written : option (list char)
}.

(** ** compressRLEChunk *)

(** The inner loop,
    [while (i + count < end && data[i + count] == c && count < 255) count++]. *)
Fixpoint run_length (fuel : nat) (data : list char) (i end_ : Z) (c : char)
    (count : Z) : result Z :=
  if size_t (i + count) <? end_ then
    d ← at_ data (size_t (i + count));
    if (d =? c) && (count <? 255) then
      match fuel with
      | O => OutOfFuel
      | S fuel' => run_length fuel' data i end_ c (size_t (count + 1))
      end
    else Ok count
  else Ok count.

(** The outer loop, [while (i < end) { ... i += count; }]. *)
Fixpoint compress_loop (fuel : nat) (data : list char) (i end_ : Z)
    (compressed : list char) : result (list char) :=
  if i <? end_ then
    match fuel with
    | O => OutOfFuel
    | S fuel' =>
        c ← at_ data i;
        count ← run_length 255 data i end_ c 1;
        compress_loop fuel' data (size_t (i + count)) end_
          (compressed ++ [c; to_char count])
    end
  else Ok compressed.

Definition compressRLEChunk (data : list char) (start end_ : Z)
    : result (list char) :=
  compress_loop (S (length data)) data start end_ [].

(** ** decompressRLEChunk *)

(** [for (size_t i = start; i < end; i += 2) { ... }] *)
Fixpoint decompress_loop (fuel : nat) (data : list char) (i end_ : Z)
    (decompressed : list char) : result (list char) :=
  if i <? end_ then
    match fuel with
    | O => OutOfFuel
    | S fuel' =>
        c ← at_ data i;
        n ← at_ data (size_t (i + 1));
        let count := to_uchar n in
        decompress_loop fuel' data (size_t (i + 2)) end_
          (decompressed ++ replicate (Z.to_nat count) c)
    end
  else Ok decompressed.

(** The result is the pair of what is printed on [std::cerr] and the vector
    returned. *)
Definition decompressRLEChunk (data : list char) (start end_ : Z)
    : result (list diagnostic * list char) :=
  if negb (size_t (end_ - start) mod 2 =? 0) then Ok ([InvalidChunkSize], [])
  else
    decompressed ← decompress_loop (S (length data)) data start end_ [];
    Ok ([], decompressed).

(** ** Worker threads *)

(** One thread: run the job and store its vector in slot [i]; what it
    prints goes to the end of the error stream. *)
Definition thread_step (job : nat -> result (list diagnostic * list char))
    (st : list diagnostic * list (list char)) (i : nat)
    : result (list diagnostic * list (list char)) :=
  '(msgs, bytes) ← job i;
  Ok (st.1 ++ msgs, <[i := bytes]> st.2).

(** All threads, in the order [sched] in which they complete, then
    [for (auto& t : threads) t.join()]. *)
Fixpoint run_threads (job : nat -> result (list diagnostic * list char))
    (sched : list nat) (st : list diagnostic * list (list char))
    : result (list diagnostic * list (list char)) :=
  match sched with
  | [] => Ok st
  | i :: sched' => st' ← thread_step job st i; run_threads job sched' st'
  end.

(** A schedule of [n] threads runs each of them once. *)
Definition schedule (n : Z) (sched : list nat) : Prop :=
  sched ≡ₚ seq 0 (Z.to_nat n).

(** ** Partition of a length among the workers *)

(** [numThreads = hardware_concurrency(); if (numThreads == 0) numThreads = 2;] *)
Definition numThreads (hw : Z) : Z := if hw =? 0 then 2 else hw.

(** [start = i * chunkSize;
     end = (i == numThreads - 1) ? total : start + chunkSize;]
    with [total] the length that is split ([data.size()] when compressing
    and [pairCount] when decompressing). *)
Definition chunk_start (chunkSize : Z) (i : Z) : Z := size_t (i * chunkSize).

Definition chunk_end (nthreads total chunkSize : Z) (i : Z) : Z :=
  if i =? uint (nthreads - 1) then total
  else size_t (chunk_start chunkSize i + chunkSize).

(** ** compressFile *)

(** Lines 104-125: split, one thread per chunk, join, merge. *)
Definition compress_chunks (sched : list nat) (nthreads : Z) (data : list char)
    : result (list diagnostic * list char) :=
  let chunkSize := size data / nthreads in
  '(log, compressedChunks) ←
    run_threads
      (fun i =>
         let start := chunk_start chunkSize (Z.of_nat i) in
         let end_ := chunk_end nthreads (size data) chunkSize (Z.of_nat i) in
         chunk ← compressRLEChunk data start end_;
         Ok ([], chunk))
      sched ([], replicate (Z.to_nat nthreads) []);
  Ok (log, concat compressedChunks).

(** [data] is what [readFile] returned; [hw] is
    [std::thread::hardware_concurrency()]. *)
Definition compressFile (sched : list nat) (hw : Z) (data : list char)
    : result outcome :=
  if bool_decide (data = []) then Ok (Outcome [EmptyInput] None)
  else
    '(log, compressed) ← compress_chunks sched (numThreads hw) data;
    let outputData :=
      if size compressed >=? size data then chr_U :: data
      else chr_C :: compressed in
    Ok (Outcome log (Some outputData)).

(** ** decompressFile *)

(** Lines 167-198: the payload after the header byte is split by pairs. *)
Definition decompress_chunks (sched : list nat) (nthreads : Z)
    (rawData : list char) (rawSize : Z)
    : result (list diagnostic * list char) :=
  let pairCount := rawSize / 2 in
  let pairsPerThread := pairCount / nthreads in
  '(log, decompressedChunks) ←
    run_threads
      (fun i =>
         let startPair := chunk_start pairsPerThread (Z.of_nat i) in
         let endPair :=
           chunk_end nthreads pairCount pairsPerThread (Z.of_nat i) in
         let startByte := size_t (startPair * 2) in
         let endByte := size_t (endPair * 2) in
         chunk ← range_ctor rawData startByte endByte;
         decompressRLEChunk chunk 0 (size_t (endByte - startByte)))
      sched ([], replicate (Z.to_nat nthreads) []);
  Ok (log, concat decompressedChunks).

Definition decompressFile (sched : list nat) (hw : Z) (data : list char)
    : result outcome :=
  if size data <? 1 then Ok (Outcome [EmptyContainer] None)
  else
    header ← at_ data 0;
    if header =? chr_C then
      let rawData := drop 1 data in
      let rawSize := size_t (size data - 1) in
      '(log, decompressed) ←
        decompress_chunks sched (numThreads hw) rawData rawSize;
      Ok (Outcome log (Some decompressed))
    else if header =? chr_U then
      Ok (Outcome [] (Some (drop 1 data)))
    else Ok (Outcome [UnknownHeader] None).

(** * Definitions used to state and prove the properties *)

(** ** The codec on whole lists *)

(** One pass over a buffer, carrying the byte [c] of the run being counted
    and its length so far. *)
Fixpoint rle_run (c : char) (count : Z) (l : list char) : list char :=
  match l with
  | [] => [c; to_char count]
  | d :: l' =>
      if (d =? c) && (count <? 255) then rle_run c (count + 1) l'
      else c :: to_char count :: rle_run d 1 l'
  end.

(** The run-length code of a buffer taken alone. *)
Definition rle (l : list char) : list char :=
  match l with
  | [] => []
  | c :: l' => rle_run c 1 l'
  end.

(** Each pair [(value, count)] becomes [count] copies of [value]; a last
    byte without a partner is ignored. *)
Fixpoint expand (v : list char) : list char :=
  match v with
  | c :: n :: v' => replicate (Z.to_nat (to_uchar n)) c ++ expand v'
  | _ => []
  end.

(** The pairs of an encoded buffer, counts read as unsigned. *)
Fixpoint pairs_of (v : list char) : list (char * Z) :=
  match v with
  | c :: n :: v' => (c, to_uchar n) :: pairs_of v'
  | _ => []
  end.

(** A count that the format allows. *)
Definition count_ok (p : char * Z) : Prop := 1 <= p.2 <= 255.

(** ** Slots of the worker threads *)

(** The slot vector after the threads of [sched] have stored the chunks
    [f i] in it. *)
Definition fill (f : nat -> list char) (sched : list nat)
    (slots : list (list char)) : list (list char) :=
  foldl (fun s i => <[i := f i]> s) slots sched.

(** ** Boundaries, ranges and chunks *)

(** Boundary [i] of the split of [total] among [nthreads] workers: chunk
    [i] is the range from boundary [i] to boundary [i + 1]. *)
Definition boundary (nthreads total : Z) (i : Z) : Z :=
  if i <? nthreads then i * (total / nthreads) else total.

(** The ranges in the order of the loop that launches the threads. *)
Definition ranges (nthreads total : Z) : list (Z * Z) :=
  (fun i : nat =>
     let chunkSize := total / nthreads in
     (chunk_start chunkSize (Z.of_nat i),
      chunk_end nthreads total chunkSize (Z.of_nat i)))
  <$> seq 0 (Z.to_nat nthreads).

(** The chunks of a buffer, and the chunks of pairs of a payload. *)
Definition chunks_of (nthreads : Z) (v : list char) : list (list char) :=
  (fun i : nat =>
     subvector v (boundary nthreads (size v) (Z.of_nat i))
                 (boundary nthreads (size v) (Z.of_nat i + 1)))
  <$> seq 0 (Z.to_nat nthreads).

Definition pair_chunks (nthreads : Z) (v : list char) : list (list char) :=
  (fun i : nat =>
     subvector v (2 * boundary nthreads (size v / 2) (Z.of_nat i))
                 (2 * boundary nthreads (size v / 2) (Z.of_nat i + 1)))
  <$> seq 0 (Z.to_nat nthreads).

(** The bytes produced by the threads of [compressFile], merged. *)
Definition encoded (nthreads : Z) (data : list char) : list char :=
  concat (rle <$> chunks_of nthreads data).

(** The slots of the [nthreads] workers of [compressFile] after the threads
    of [sched] have run: slot [i] holds the code of chunk [i] once thread
    [i] has run, and is empty before. *)
Definition encode_slots (nthreads : Z) (data : list char) (sched : list nat)
    : list (list char) :=
  fill (fun i => rle (default [] (chunks_of nthreads data !! i))) sched
    (replicate (Z.to_nat nthreads) []).

(** The same for the workers of [decompressFile], on chunks of pairs. *)
Definition decode_slots (nthreads : Z) (raw : list char) (sched : list nat)
    : list (list char) :=
  fill (fun i => expand (default [] (pair_chunks nthreads raw !! i))) sched
    (replicate (Z.to_nat nthreads) []).

(** A buffer without two equal neighbouring bytes. *)
Fixpoint alternating (l : list char) : bool :=
  match l with
  | x :: l' =>
      match l' with
      | y :: _ => negb (x =? y) && alternating l'
      | [] => true
      end
  | [] => true
  end.

(** ** Sequential processing of the chunks *)

(** The encoder run on each chunk in turn, every chunk copied out and
    encoded as a buffer of its own, and the results put end to end. *)
Definition sequential_compress (nthreads : Z) (data : list char)
    : result (list diagnostic * list char) :=
  chunks ← mapM (fun r : Z * Z =>
                   compressRLEChunk (subvector data r.1 r.2) 0 (r.2 - r.1))
                (ranges nthreads (size data));
  Ok ([], concat chunks).

(** The same for the decoder, on ranges of pairs. *)
Definition sequential_decompress (nthreads : Z) (raw : list char)
    : result (list diagnostic * list char) :=
  outs ← mapM (fun r : Z * Z =>
                 decompressRLEChunk (subvector raw (2 * r.1) (2 * r.2))
                   0 (2 * r.2 - 2 * r.1))
              (ranges nthreads (size raw / 2));
  Ok (concat (fst <$> outs), concat (snd <$> outs)).


(** Consecutive pairs carry different bytes, unless the first of the two
    is full. *)
Fixpoint maximal_runs (ps : list (char * Z)) : Prop :=
  match ps with
  | p :: ps' =>
      match ps' with
      | q :: _ => (p.1 <> q.1 \/ p.2 = 255) /\ maximal_runs ps'
      | [] => True
      end
  | [] => True
  end.

(** * The console, the files and the menu *)

(** The rest of the program works on the standard input, read line by
    line, on named files and on [std::cerr].  A file can be opened for
    reading when it exists; it can be opened for writing, which creates or
    empties it, unless its name is one of the [locked] names.  Line ends
    are those of POSIX: the text stream writes the newline as one byte. *)

Inductive message : Type :=
| FailedToOpen (filename : string)   (* Failed to open <filename> *)
| CannotCreate                       (* Cannot create file. *)
| FailedWriteCompressed              (* Failed to write compressed file. *)
| FailedWriteDecompressed            (* Failed to write decompressed file. *)
| Report (d : diagnostic).

Record world : Type := World {
  stdin : list string;
  files : gmap string (list char);
  locked : gset string;
  console : list message
}.

(** [std::getline(std::cin, line)] into a fresh string: at the end of the
    input the string stays empty. *)
Definition getline (w : world) : string * world :=
  match stdin w with
  | [] => (EmptyString, w)
  | line :: rest => (line, World rest (files w) (locked w) (console w))
  end.

(** [std::cerr << ...] *)
Definition print (ms : list message) (w : world) : world :=
  World (stdin w) (files w) (locked w) (console w ++ ms).

(** The bytes of a string. *)
Fixpoint bytes (s : string) : list char :=
  match s with
  | EmptyString => []
  | String a s' => Z.of_N (Ascii.N_of_ascii a) :: bytes s'
  end.

(** ** writeFile and readFile *)

Definition writeFile (filename : string) (data : list char) (w : world)
    : bool * world :=
  if bool_decide (filename ∈ locked w) then (false, w)
  else (true, World (stdin w) (<[filename := data]> (files w))
                    (locked w) (console w)).

Definition readFile (filename : string) (w : world) : list char * world :=
  match files w !! filename with
  | None => ([], print [FailedToOpen filename] w)
  | Some data => (data, w)
  end.

(** ** createFile *)

(** [while (true) { getline; if (line.empty()) break; out << line << "\n"; }]
    with [out] the text written so far. *)
Fixpoint read_lines (input : list string) (out : list char)
    : list char * list string :=
  match input with
  | [] => (out, [])
  | line :: rest =>
      if String.eqb line EmptyString then (out, rest)
      else read_lines rest (out ++ bytes line ++ [10])
  end.

Definition createFile (w : world) : world :=
  let '(filename, w1) := getline w in
  if bool_decide (filename ∈ locked w1) then print [CannotCreate] w1
  else
    let '(text, rest) := read_lines (stdin w1) [] in
    World rest (<[filename := text]> (files w1)) (locked w1) (console w1).

(** ** compressFile and decompressFile, with their console and files *)

(** The whole of [compressFile]: the name of the input is read, then the
    file; lines 95 to 141 are [compressFile] above; the name of the output
    is read only when there is something to write. *)
Definition compressFile_io (sched : list nat) (hw : Z) (w : world)
    : result world :=
  let '(inFile, w1) := getline w in
  let '(data, w2) := readFile inFile w1 in
  o ← compressFile sched hw data;
  let w3 := print (Report <$> cerr o) w2 in
  match written o with
  | None => Ok w3
  | Some outputData =>
      let '(outFile, w4) := getline w3 in
      let '(ok, w5) := writeFile outFile outputData w4 in
      if ok then Ok w5 else Ok (print [FailedWriteCompressed] w5)
  end.

Definition decompressFile_io (sched : list nat) (hw : Z) (w : world)
    : result world :=
  let '(inFile, w1) := getline w in
  let '(data, w2) := readFile inFile w1 in
  o ← decompressFile sched hw data;
  let w3 := print (Report <$> cerr o) w2 in
  match written o with
  | None => Ok w3
  | Some decompressed =>
      let '(outFile, w4) := getline w3 in
      let '(ok, w5) := writeFile outFile decompressed w4 in
      if ok then Ok w5 else Ok (print [FailedWriteDecompressed] w5)
  end.

(** ** main *)

(** The menu loop.  [fuel] bounds the number of choices read; [scheds n] is
    the order in which the threads of the [n]-th choice run. *)
Fixpoint main_loop (scheds : nat -> list nat) (hw : Z) (fuel : nat) (n : nat)
    (w : world) : result world :=
  match fuel with
  | O => OutOfFuel
  | S fuel' =>
      let '(choiceStr, w1) := getline w in
      if String.eqb choiceStr "1" then
        main_loop scheds hw fuel' (S n) (createFile w1)
      else if String.eqb choiceStr "2" then
        w2 ← compressFile_io (scheds n) hw w1;
        main_loop scheds hw fuel' (S n) w2
      else if String.eqb choiceStr "3" then
        w2 ← decompressFile_io (scheds n) hw w1;
        main_loop scheds hw fuel' (S n) w2
      else if String.eqb choiceStr "4" then Ok w1
      else main_loop scheds hw fuel' (S n) w1
  end.

Definition main (scheds : nat -> list nat) (hw : Z) (fuel : nat) (w : world)
    : result world :=
  main_loop scheds hw fuel 0 w.

(** A world to try the operations on: one file [a] of six equal bytes, and
    four names followed by the choice 4 waiting on the input. *)
Definition sample_world : world :=
  World ["a"; "a"; "a"; "b"; "4"]%string
    {["a"%string := [5; 5; 5; 5; 5; 5]]} ∅ [].

(** The same file with a whole session waiting on the input. *)
Definition sample_session : world :=
  World (["2"; "a"; "z"; "3"; "z"; "b"; "4"]%string ++ ["1"%string])
    {["a"%string := [5; 5; 5; 5; 5; 5]]} ∅ [].

(** * Properties *)

(** ** First checks on concrete inputs *)

Example compress_aaab :
  compressRLEChunk [65; 65; 65; 66] 0 4 = Ok [65; 3; 66; 1].
Proof. reflexivity. Qed.

Example decompress_aaab :
  decompressRLEChunk [65; 3; 66; 1] 0 4 = Ok ([], [65; 65; 65; 66]).
Proof. reflexivity. Qed.

Example compressFile_six_a :
  compressFile [1; 0]%nat 2 [65; 65; 65; 65; 65; 65]
  = Ok (Outcome [] (Some [chr_C; 65; 3; 65; 3])).
Proof. vm_compute. reflexivity. Qed.

Example decompressFile_six_a :
  decompressFile [2; 0; 1]%nat 3 [chr_C; 65; 3; 65; 3]
  = Ok (Outcome [] (Some [65; 65; 65; 65; 65; 65])).
Proof. vm_compute. reflexivity. Qed.

(** ** Arithmetic of the machine types *)

Lemma size_t_small x : 0 <= x < 2 ^ 64 -> size_t x = x.
Proof. intros H. unfold size_t. apply Z.mod_small. exact H. Qed.

Lemma uint_small x : 0 <= x < 2 ^ 32 -> uint x = x.
Proof. intros H. unfold uint. apply Z.mod_small. exact H. Qed.

Lemma to_uchar_to_char n : 0 <= n < 256 -> to_uchar (to_char n) = n.
Proof.
  intros H. unfold to_uchar, to_char.
  rewrite Z.mod_mod by lia. apply Z.mod_small. exact H.
Qed.

Lemma max_size_lt : max_size < 2 ^ 64.
Proof. unfold max_size. lia. Qed.

Lemma size_nonneg v : 0 <= size v.
Proof. unfold size. lia. Qed.

Lemma size_app v w : size (v ++ w) = size v + size w.
Proof. unfold size. rewrite length_app. lia. Qed.

Lemma size_cons c v : size (c :: v) = 1 + size v.
Proof. unfold size. simpl. lia. Qed.

(** ** Sub-vectors *)

Lemma subvector_empty v first last : last <= first -> subvector v first last = [].
Proof.
  intros H. unfold subvector.
  replace (Z.to_nat (last - first)) with 0%nat by lia. reflexivity.
Qed.

Lemma subvector_cons v i e :
  0 <= i < e -> e <= size v ->
  exists d, v !! Z.to_nat i = Some d /\
            subvector v i e = d :: subvector v (i + 1) e.
Proof.
  intros Hi He. unfold size in He.
  destruct (lookup_lt_is_Some_2 v (Z.to_nat i)) as [d Hd]; [lia |].
  exists d. split; [exact Hd |].
  unfold subvector.
  replace (Z.to_nat (e - i)) with (S (Z.to_nat (e - (i + 1)))) by lia.
  rewrite (drop_S _ _ _ Hd). simpl.
  replace (Z.to_nat (i + 1)) with (S (Z.to_nat i)) by lia. reflexivity.
Qed.

Lemma subvector_all v : subvector v 0 (size v) = v.
Proof.
  unfold subvector, size. simpl.
  rewrite Z.sub_0_r, Nat2Z.id. rewrite drop_0. apply firstn_all.
Qed.

Lemma subvector_length v i e :
  0 <= i <= e -> e <= size v -> size (subvector v i e) = e - i.
Proof.
  intros Hi He. unfold subvector, size in *.
  rewrite length_take, length_drop. lia.
Qed.

Lemma subvector_split v i j e :
  0 <= i <= j -> j <= e ->
  subvector v i e = subvector v i j ++ subvector v j e.
Proof.
  intros Hi Hj. unfold subvector.
  replace (Z.to_nat (e - i)) with (Z.to_nat (j - i) + Z.to_nat (e - j))%nat by lia.
  rewrite <- take_take_drop, drop_drop.
  replace (Z.to_nat i + Z.to_nat (j - i))%nat with (Z.to_nat j) by lia.
  reflexivity.
Qed.

(** ** The loops compute the list-level codec *)

Arguments size_t : simpl never.
Arguments uint : simpl never.
Arguments to_char : simpl never.
Arguments to_uchar : simpl never.

Lemma at_lookup v i d : v !! Z.to_nat i = Some d -> at_ v i = Ok d.
Proof. intros H. unfold at_. rewrite H. reflexivity. Qed.

Lemma run_length_unfold fuel data i end_ c count :
  run_length fuel data i end_ c count =
  if size_t (i + count) <? end_ then
    d ← at_ data (size_t (i + count));
    if (d =? c) && (count <? 255) then
      match fuel with
      | O => OutOfFuel
      | S fuel' => run_length fuel' data i end_ c (size_t (count + 1))
      end
    else Ok count
  else Ok count.
Proof. destruct fuel; reflexivity. Qed.

Lemma run_length_spec fuel data i e c count :
  0 <= i -> 1 <= count <= 255 -> i + count <= e -> e <= size data ->
  fits data -> (Z.to_nat (255 - count) <= fuel)%nat ->
  exists k,
    run_length fuel data i e c count = Ok k /\
    count <= k <= 255 /\ i + k <= e /\
    rle_run c count (subvector data (i + count) e)
    = c :: to_char k :: rle (subvector data (i + k) e).
Proof.
  revert count.
  induction fuel as [| fuel IH]; intros count Hi Hc Hle He Hfit Hfuel;
    pose proof max_size_lt as Hmax; pose proof Hfit as Hfit';
    unfold fits in Hfit';
    rewrite run_length_unfold; rewrite (size_t_small (i + count)) by lia.
  - (* no fuel left: the count has reached 255 *)
    assert (count = 255) as -> by lia.
    destruct (Z.ltb_spec (i + 255) e) as [Hlt | Hge].
    + destruct (subvector_cons data (i + 255) e) as (d & Hd & Hsub); [lia | lia |].
      rewrite (at_lookup _ _ _ Hd). simpl.
      rewrite andb_false_r. exists 255. repeat split; try lia.
      rewrite Hsub. simpl. rewrite andb_false_r. reflexivity.
    + exists 255. repeat split; try lia.
      rewrite subvector_empty by lia. reflexivity.
  - destruct (Z.ltb_spec (i + count) e) as [Hlt | Hge].
    + destruct (subvector_cons data (i + count) e) as (d & Hd & Hsub); [lia | lia |].
      rewrite (at_lookup _ _ _ Hd). simpl. rewrite Hsub. simpl.
      destruct ((d =? c) && (count <? 255)) eqn:Hcond.
      * apply andb_true_iff in Hcond as [_ Hcnt]. apply Z.ltb_lt in Hcnt.
        rewrite (size_t_small (count + 1)) by lia.
        destruct (IH (count + 1)) as (k & Hk & Hb & Hik & Hr);
          try assumption; try lia.
        exists k. repeat split; try lia; [exact Hk |].
        rewrite <- Hr. f_equal. f_equal. lia.
      * exists count. repeat split; try lia.
        rewrite Hsub. reflexivity.
    + exists count. repeat split; try lia.
      rewrite !subvector_empty by lia. reflexivity.
Qed.

Lemma bind_Ok {A B : Type} (a : A) (f : A -> result B) : Ok a ≫= f = f a.
Proof. reflexivity. Qed.

Lemma compress_loop_S fuel data i end_ compressed :
  compress_loop (S fuel) data i end_ compressed =
  if i <? end_ then
    c ← at_ data i;
    count ← run_length 255 data i end_ c 1;
    compress_loop fuel data (size_t (i + count)) end_
      (compressed ++ [c; to_char count])
  else Ok compressed.
Proof. reflexivity. Qed.

Lemma compress_loop_spec fuel data i e acc :
  0 <= i -> e <= size data -> fits data ->
  (Z.to_nat (e - i) <= fuel)%nat ->
  compress_loop fuel data i e acc = Ok (acc ++ rle (subvector data i e)).
Proof.
  revert i acc.
  induction fuel as [| fuel IH]; intros i acc Hi He Hfit Hfuel;
    pose proof max_size_lt as Hmax; pose proof Hfit as Hfit'; unfold fits in Hfit'.
  - simpl. destruct (Z.ltb_spec i e); [lia |].
    rewrite subvector_empty by lia. rewrite app_nil_r. reflexivity.
  - rewrite compress_loop_S. destruct (Z.ltb_spec i e) as [Hlt | Hge].
    + destruct (subvector_cons data i e) as (c & Hc & Hsub); [lia | lia |].
      rewrite (at_lookup _ _ _ Hc), bind_Ok.
      destruct (run_length_spec 255 data i e c 1) as (k & Hk & Hb & Hik & Hr);
        try lia; [exact Hfit |].
      rewrite Hk, bind_Ok.
      rewrite (size_t_small (i + k)) by lia.
      rewrite IH by (try exact Hfit; lia).
      rewrite Hsub. simpl. rewrite Hr.
      rewrite <- app_assoc. reflexivity.
    + rewrite subvector_empty by lia. rewrite app_nil_r. reflexivity.
Qed.

(** On a range inside the buffer the chunk encoder returns, and what it
    returns is the run-length code of the bytes of the range alone. *)
Lemma compressRLEChunk_spec data start end_ :
  0 <= start -> end_ <= size data -> fits data ->
  compressRLEChunk data start end_ = Ok (rle (subvector data start end_)).
Proof.
  intros Hs He Hfit. unfold compressRLEChunk.
  rewrite compress_loop_spec; try assumption.
  - reflexivity.
  - unfold size in He. lia.
Qed.

Lemma decompress_loop_S fuel data i end_ decompressed :
  decompress_loop (S fuel) data i end_ decompressed =
  if i <? end_ then
    c ← at_ data i;
    n ← at_ data (size_t (i + 1));
    decompress_loop fuel data (size_t (i + 2)) end_
      (decompressed ++ replicate (Z.to_nat (to_uchar n)) c)
  else Ok decompressed.
Proof. reflexivity. Qed.

Lemma expand_replicate_app n c v :
  expand (c :: n :: v) = replicate (Z.to_nat (to_uchar n)) c ++ expand v.
Proof. reflexivity. Qed.

Lemma decompress_loop_spec fuel data i e acc :
  0 <= i <= e -> e <= size data -> fits data -> (e - i) mod 2 = 0 ->
  (Z.to_nat (e - i) <= 2 * fuel)%nat ->
  decompress_loop fuel data i e acc = Ok (acc ++ expand (subvector data i e)).
Proof.
  revert i acc.
  induction fuel as [| fuel IH]; intros i acc Hi He Hfit Hev Hfuel;
    pose proof max_size_lt as Hmax; pose proof Hfit as Hfit'; unfold fits in Hfit'.
  - simpl. destruct (Z.ltb_spec i e); [lia |].
    rewrite subvector_empty by lia. rewrite app_nil_r. reflexivity.
  - simpl. destruct (Z.ltb_spec i e) as [Hlt | Hge].
    + assert (i + 1 < e) as Hlt1.
      { destruct (Z.eq_dec (i + 1) e) as [<- |]; [| lia].
        replace (i + 1 - i) with 1 in Hev by lia. discriminate Hev. }
      destruct (subvector_cons data i e) as (c & Hc & Hsub); [lia | lia |].
      destruct (subvector_cons data (i + 1) e) as (n & Hn & Hsub1); [lia | lia |].
      rewrite (at_lookup _ _ _ Hc). simpl.
      rewrite (size_t_small (i + 1)) by lia.
      rewrite (at_lookup _ _ _ Hn). simpl.
      rewrite (size_t_small (i + 2)) by lia.
      rewrite IH; try assumption; try lia.
      * rewrite Hsub, Hsub1. rewrite expand_replicate_app.
        replace (i + 1 + 1) with (i + 2) by lia.
        rewrite <- app_assoc. reflexivity.
      * replace (e - (i + 2)) with (e - i + (-1) * 2) by lia.
        rewrite Z.mod_add by lia. exact Hev.
    + rewrite subvector_empty by lia. rewrite app_nil_r. reflexivity.
Qed.

(** On an even range inside the buffer the chunk decoder prints nothing and
    returns the expansion of the pairs of the range. *)
Lemma decompressRLEChunk_spec data start end_ :
  0 <= start <= end_ -> end_ <= size data -> fits data ->
  (end_ - start) mod 2 = 0 ->
  decompressRLEChunk data start end_
  = Ok ([], expand (subvector data start end_)).
Proof.
  intros Hs He Hfit Hev. unfold decompressRLEChunk.
  pose proof max_size_lt as Hmax. pose proof Hfit as Hfit'. unfold fits in Hfit'.
  rewrite (size_t_small (end_ - start)) by lia.
  rewrite Hev. cbn [Z.eqb negb].
  rewrite decompress_loop_spec; try assumption.
  - reflexivity.
  - unfold size in He.
    assert (end_ - start <= 2 * Z.of_nat (length data)) by lia. lia.
Qed.

(** ** The fuel given to the loops is never used up *)

Lemma at_Ok v i c : 0 <= i -> at_ v i = Ok c -> i < size v.
Proof.
  intros Hi H. unfold at_ in H.
  destruct (v !! Z.to_nat i) eqn:Hl; [| discriminate].
  apply lookup_lt_Some in Hl. unfold size. lia.
Qed.

Lemma at_fuel v i : at_ v i <> OutOfFuel.
Proof. unfold at_. destruct (v !! Z.to_nat i); discriminate. Qed.

(** Case analysis on a read [at_ v i]: the value read, or a read past the
    end. *)
Ltac case_at v i c H :=
  destruct (at_ v i) as [c | |] eqn:H;
  [| | exfalso; exact (at_fuel _ _ H)].

Lemma run_length_fuel fuel data i e c count :
  1 <= count <= 255 -> (Z.to_nat (255 - count) <= fuel)%nat ->
  match run_length fuel data i e c count with
  | Ok k => count <= k <= 255
  | OutOfBounds => True
  | OutOfFuel => False
  end.
Proof.
  revert count. induction fuel as [| fuel IH]; intros count Hc Hfuel;
    rewrite run_length_unfold;
    (destruct (size_t (i + count) <? e); [| lia]);
    (case_at data (size_t (i + count)) d Hat; [| exact I]);
    rewrite bind_Ok;
    (destruct ((d =? c) && (count <? 255)) eqn:Hcond; [| lia]);
    apply andb_true_iff in Hcond as [_ Hlt]; apply Z.ltb_lt in Hlt.
  - lia.
  - rewrite (size_t_small (count + 1)) by lia.
    specialize (IH (count + 1) ltac:(lia) ltac:(lia)).
    destruct (run_length fuel data i e c (count + 1)); [lia | exact I | exact IH].
Qed.

Lemma compress_loop_fuel fuel data i e acc :
  fits data -> 0 <= i -> (Z.to_nat (size data - i) < fuel)%nat ->
  compress_loop fuel data i e acc <> OutOfFuel.
Proof.
  intros Hfit. unfold fits, max_size in Hfit.
  revert i acc. induction fuel as [| fuel IH]; intros i acc Hi Hfuel; [lia |].
  rewrite compress_loop_S.
  destruct (i <? e); [| discriminate].
  case_at data i c Hat; [| discriminate].
  apply at_Ok in Hat; [| exact Hi]. rewrite bind_Ok.
  pose proof (run_length_fuel 255 data i e c 1 ltac:(lia) ltac:(lia)) as Hrun.
  destruct (run_length 255 data i e c 1) as [k | |];
    [| discriminate | contradiction].
  cbv beta iota in Hrun.
  rewrite bind_Ok, (size_t_small (i + k)) by lia.
  apply IH; lia.
Qed.

Lemma decompress_loop_fuel fuel data i e acc :
  fits data -> 0 <= i -> (Z.to_nat (size data - i) < fuel)%nat ->
  decompress_loop fuel data i e acc <> OutOfFuel.
Proof.
  intros Hfit. unfold fits, max_size in Hfit.
  revert i acc. induction fuel as [| fuel IH]; intros i acc Hi Hfuel; [lia |].
  rewrite decompress_loop_S.
  destruct (i <? e); [| discriminate].
  case_at data i c Hat; [| discriminate].
  apply at_Ok in Hat; [| exact Hi]. rewrite bind_Ok.
  rewrite (size_t_small (i + 1)) by lia.
  case_at data (i + 1) n Hat1; [| discriminate].
  rewrite bind_Ok, (size_t_small (i + 2)) by lia.
  apply IH; lia.
Qed.

(** On a vector that fits, whatever the range, the two chunk functions
    either return or read past the end of the vector. *)
Lemma chunk_functions_fuel data start end_ :
  fits data -> 0 <= start ->
  compressRLEChunk data start end_ <> OutOfFuel /\
  decompressRLEChunk data start end_ <> OutOfFuel.
Proof.
  intros Hfit Hs. pose proof (size_nonneg data) as Hsz. split.
  - unfold compressRLEChunk. apply compress_loop_fuel; try assumption.
    unfold size. lia.
  - unfold decompressRLEChunk.
    destruct (negb (size_t (end_ - start) mod 2 =? 0)); [discriminate |].
    pose proof (decompress_loop_fuel (S (length data)) data start end_ []
                  Hfit Hs) as Hloop.
    destruct (decompress_loop (S (length data)) data start end_ []);
      [discriminate | discriminate |].
    exfalso. apply Hloop; [unfold size; lia | reflexivity].
Qed.

(** ** Properties of the list-level codec *)

Lemma list_pair_ind (P : list char -> Prop) :
  P [] -> (forall x, P [x]) -> (forall x y l, P l -> P (x :: y :: l)) ->
  forall l, P l.
Proof.
  intros Hnil Hone Hstep.
  assert (forall l, P l /\ forall x, P (x :: l)) as H.
  { induction l as [| y l [IH1 IH2]]; split; auto. }
  intros l. apply H.
Qed.

Lemma even_size_cons2 x y (l : list char) :
  size (x :: y :: l) mod 2 = 0 <-> size l mod 2 = 0.
Proof.
  rewrite !size_cons.
  replace (1 + (1 + size l)) with (size l + 1 * 2) by lia.
  rewrite Z.mod_add by lia. reflexivity.
Qed.

Lemma expand_app a b :
  size a mod 2 = 0 -> expand (a ++ b) = expand a ++ expand b.
Proof.
  induction a as [| x | x y a IH] using list_pair_ind; intros Hev.
  - reflexivity.
  - discriminate Hev.
  - apply even_size_cons2 in Hev. simpl. rewrite IH by exact Hev.
    rewrite app_assoc. reflexivity.
Qed.

Lemma size_app_even a b :
  size a mod 2 = 0 -> size b mod 2 = 0 -> size (a ++ b) mod 2 = 0.
Proof.
  intros Ha Hb. rewrite size_app.
  rewrite Z.add_mod by lia. rewrite Ha, Hb. reflexivity.
Qed.

Lemma rle_run_even c n l : size (rle_run c n l) mod 2 = 0.
Proof.
  revert c n. induction l as [| d l IH]; intros c n; simpl.
  - reflexivity.
  - destruct ((d =? c) && (n <? 255)).
    + apply IH.
    + apply even_size_cons2. apply IH.
Qed.

(** An encoded chunk has an even number of bytes. *)
Lemma rle_even l : size (rle l) mod 2 = 0.
Proof. destruct l as [| c l]; [reflexivity | apply rle_run_even]. Qed.

Lemma expand_rle_run c n l :
  1 <= n <= 255 -> expand (rle_run c n l) = replicate (Z.to_nat n) c ++ l.
Proof.
  revert c n. induction l as [| d l IH]; intros c n Hn; simpl.
  - rewrite to_uchar_to_char by lia. reflexivity.
  - destruct ((d =? c) && (n <? 255)) eqn:Hcond.
    + apply andb_true_iff in Hcond as [Hd Hlt].
      apply Z.eqb_eq in Hd. apply Z.ltb_lt in Hlt. subst d.
      rewrite IH by lia.
      replace (Z.to_nat (n + 1)) with (S (Z.to_nat n)) by lia.
      rewrite replicate_S_end, <- app_assoc. reflexivity.
    + rewrite expand_replicate_app, to_uchar_to_char by lia.
      rewrite IH by lia. reflexivity.
Qed.

(** Expanding the code of a buffer gives the buffer back. *)
Lemma expand_rle l : expand (rle l) = l.
Proof.
  destruct l as [| c l]; [reflexivity |].
  simpl. rewrite expand_rle_run by lia. reflexivity.
Qed.

Lemma pairs_of_rle_run c n l :
  1 <= n <= 255 -> Forall count_ok (pairs_of (rle_run c n l)).
Proof.
  revert c n. induction l as [| d l IH]; intros c n Hn; simpl.
  - repeat constructor; unfold count_ok; simpl;
      rewrite to_uchar_to_char; lia.
  - destruct ((d =? c) && (n <? 255)) eqn:Hcond.
    + apply andb_true_iff in Hcond as [_ Hlt]. apply Z.ltb_lt in Hlt.
      apply IH. lia.
    + simpl. constructor.
      * unfold count_ok; simpl. rewrite to_uchar_to_char; lia.
      * apply IH. lia.
Qed.

Lemma pairs_of_rle l : Forall count_ok (pairs_of (rle l)).
Proof.
  destruct l as [| c l]; [constructor |]. apply pairs_of_rle_run. lia.
Qed.

(** The code is never more than twice as long as the buffer. *)
Lemma rle_run_size c n l : 2 <= size (rle_run c n l) <= 2 + 2 * size l.
Proof.
  revert c n. induction l as [| d l IH]; intros c n; simpl.
  - unfold size. simpl. lia.
  - destruct ((d =? c) && (n <? 255)); rewrite ?size_cons.
    + specialize (IH c (n + 1)). lia.
    + specialize (IH d 1). lia.
Qed.

Lemma rle_size l : size (rle l) <= 2 * size l.
Proof.
  destruct l as [| c l]; [unfold size; simpl; lia |].
  simpl. pose proof (rle_run_size c 1 l). rewrite size_cons. lia.
Qed.

(** ** Threads: the slots after the join do not depend on the schedule *)

Section Threads.
Variable job : nat -> result (list diagnostic * list char).
Variable f : nat -> list char.

Lemma fill_cons i sched slots :
  fill f (i :: sched) slots = fill f sched (<[i := f i]> slots).
Proof. reflexivity. Qed.

Lemma fill_length sched slots : length (fill f sched slots) = length slots.
Proof.
  revert slots. induction sched as [| i sched IH]; intros slots.
  - reflexivity.
  - rewrite fill_cons, IH. apply length_insert.
Qed.

Lemma fill_lookup_other sched slots j :
  j ∉ sched -> fill f sched slots !! j = slots !! j.
Proof.
  revert slots. induction sched as [| i sched IH]; intros slots Hj.
  - reflexivity.
  - apply not_elem_of_cons in Hj as [Hne Hj].
    rewrite fill_cons, IH by exact Hj.
    apply list_lookup_insert_ne. congruence.
Qed.

Lemma fill_lookup_own sched slots j :
  j ∈ sched -> (j < length slots)%nat -> fill f sched slots !! j = Some (f j).
Proof.
  revert slots. induction sched as [| i sched IH]; intros slots Hj Hlen.
  - inversion Hj.
  - rewrite fill_cons. destruct (decide (j ∈ sched)) as [Hin | Hout].
    + apply IH; [exact Hin |]. rewrite length_insert. exact Hlen.
    + apply elem_of_cons in Hj as [-> | Hin]; [| contradiction].
      rewrite fill_lookup_other by exact Hout.
      apply list_lookup_insert_eq. exact Hlen.
Qed.

Lemma fill_schedule n sched x :
  sched ≡ₚ seq 0 n -> fill f sched (replicate n x) = f <$> seq 0 n.
Proof.
  intros Hperm. apply list_eq. intros j.
  rewrite list_lookup_fmap.
  destruct (decide (j < n)%nat) as [Hlt | Hge].
  - rewrite fill_lookup_own.
    + rewrite lookup_seq_lt by exact Hlt. reflexivity.
    + rewrite Hperm. apply elem_of_seq. lia.
    + rewrite length_replicate. exact Hlt.
  - rewrite lookup_seq_ge by lia. simpl.
    apply lookup_ge_None. rewrite fill_length, length_replicate. lia.
Qed.

Hypothesis job_quiet : forall i, job i = Ok ([], f i).

Lemma run_threads_fill sched log slots :
  run_threads job sched (log, slots) = Ok (log, fill f sched slots).
Proof.
  revert log slots. induction sched as [| i sched IH]; intros log slots.
  - reflexivity.
  - rewrite fill_cons. simpl. unfold thread_step.
    rewrite job_quiet, bind_Ok. simpl.
    rewrite app_nil_r. apply IH.
Qed.
End Threads.

(** When every thread of the schedule returns its chunk without printing,
    the joined slots are the chunks in index order, whatever the order in
    which the threads ran. *)
Lemma run_threads_schedule job f n sched :
  sched ≡ₚ seq 0 n ->
  (forall i, (i < n)%nat -> job i = Ok ([], f i)) ->
  run_threads job sched ([], replicate n []) = Ok ([], f <$> seq 0 n).
Proof.
  intros Hperm Hjob.
  set (job' := fun i => if decide (i < n)%nat then job i else Ok ([], f i)).
  assert (forall st, run_threads job sched st = run_threads job' sched st) as Heq.
  { assert (forall i, i ∈ sched -> (i < n)%nat) as Hin.
    { intros i Hi. rewrite Hperm in Hi. apply elem_of_seq in Hi. lia. }
    clear Hperm. induction sched as [| i sched IH]; intros st; [reflexivity |].
    simpl. unfold thread_step, job'.
    destruct (decide (i < n)%nat) as [Hlt | Hge].
    - destruct (job i ≫= _); try reflexivity.
      rewrite !bind_Ok. apply IH. intros k Hk. apply Hin. right. exact Hk.
    - exfalso. apply Hge, Hin. left. }
  rewrite Heq. rewrite (run_threads_fill job' f).
  - rewrite (fill_schedule f n sched []) by exact Hperm. reflexivity.
  - intros i. unfold job'. destruct (decide (i < n)%nat); auto.
Qed.

(** ** The partition *)

Section Partition.
Variables W L : Z.
Hypothesis W_range : 1 <= W < 2 ^ 32.
Hypothesis L_range : 0 <= L <= max_size.

Lemma chunk_size_bounds : 0 <= L / W /\ W * (L / W) <= L.
Proof.
  split.
  - apply Z.div_pos; lia.
  - apply Z.mul_div_le. lia.
Qed.

Lemma boundary_0 : boundary W L 0 = 0.
Proof. unfold boundary. destruct (Z.ltb_spec 0 W); lia. Qed.

Lemma boundary_last : boundary W L W = L.
Proof. unfold boundary. rewrite Z.ltb_irrefl. reflexivity. Qed.

Lemma boundary_bounds i : 0 <= i -> 0 <= boundary W L i <= L.
Proof.
  intros Hi. destruct chunk_size_bounds as [Hq HW].
  unfold boundary. destruct (Z.ltb_spec i W); [| lia].
  assert (i * (L / W) <= W * (L / W))
    by (apply Z.mul_le_mono_nonneg_r; lia).
  assert (0 <= i * (L / W)) by (apply Z.mul_nonneg_nonneg; lia).
  lia.
Qed.

Lemma boundary_mono i :
  0 <= i -> boundary W L i <= boundary W L (i + 1).
Proof.
  intros Hi. destruct chunk_size_bounds as [Hq HW].
  pose proof (boundary_bounds i Hi) as Hb. unfold boundary in *.
  destruct (Z.ltb_spec i W), (Z.ltb_spec (i + 1) W); lia.
Qed.

Lemma chunk_start_boundary i :
  0 <= i < W -> chunk_start (L / W) i = boundary W L i.
Proof.
  intros Hi. pose proof max_size_lt. pose proof (boundary_bounds i).
  unfold chunk_start, boundary in *.
  destruct (Z.ltb_spec i W); [| lia].
  apply size_t_small. lia.
Qed.

Lemma chunk_end_boundary i :
  0 <= i < W -> chunk_end W L (L / W) i = boundary W L (i + 1).
Proof.
  intros Hi. pose proof max_size_lt.
  pose proof (boundary_bounds (i + 1)). pose proof (boundary_bounds i).
  unfold chunk_end. rewrite chunk_start_boundary by exact Hi.
  rewrite uint_small by lia.
  unfold boundary in *.
  destruct (Z.eqb_spec i (W - 1)), (Z.ltb_spec i W), (Z.ltb_spec (i + 1) W);
    try lia.
  rewrite size_t_small by lia. lia.
Qed.
End Partition.

(** Consecutive sub-vectors concatenate to the sub-vector they cover. *)
Lemma concat_subvectors v (b : nat -> Z) (n : nat) :
  b 0%nat = 0 ->
  (forall i, (i < n)%nat -> b i <= b (S i)) ->
  concat ((fun i => subvector v (b i) (b (S i))) <$> seq 0 n)
  = subvector v 0 (b n).
Proof.
  intros H0 Hmono. induction n as [| n IH].
  - simpl. rewrite subvector_empty by lia. reflexivity.
  - assert (forall i, (i <= n)%nat -> 0 <= b i) as Hpos.
    { induction i as [| i IHi]; intros Hi; [lia |].
      specialize (Hmono i ltac:(lia)). specialize (IHi ltac:(lia)). lia. }
    rewrite seq_S, fmap_app, concat_app. simpl.
    rewrite IH by (intros i Hi; apply Hmono; lia).
    rewrite app_nil_r.
    symmetry. apply subvector_split.
    + specialize (Hpos n ltac:(lia)). lia.
    + apply Hmono. lia.
Qed.

(** The chunks of a buffer, put back in order, are the buffer. *)
Lemma concat_chunks_of W v :
  1 <= W < 2 ^ 32 -> fits v -> concat (chunks_of W v) = v.
Proof.
  intros HW Hfit. unfold chunks_of.
  pose proof (size_nonneg v) as Hsz. unfold fits in Hfit.
  rewrite (list_fmap_ext _
    (fun i => subvector v (boundary W (size v) (Z.of_nat i))
                          (boundary W (size v) (Z.of_nat (S i))))).
  2:{ intros i x _. do 2 f_equal. lia. }
  rewrite (concat_subvectors v (fun i => boundary W (size v) (Z.of_nat i))).
  - rewrite Z2Nat.id by lia. rewrite boundary_last. apply subvector_all.
  - apply boundary_0; lia.
  - intros i Hi. replace (Z.of_nat (S i)) with (Z.of_nat i + 1) by lia.
    apply boundary_mono; lia.
Qed.

Lemma expand_concat (chunks : list (list char)) :
  Forall (fun c => size c mod 2 = 0) chunks ->
  expand (concat chunks) = concat (expand <$> chunks).
Proof.
  induction 1 as [| c chunks Hc _ IH]; simpl.
  - reflexivity.
  - rewrite expand_app by exact Hc. rewrite IH. reflexivity.
Qed.

(** A last byte without a partner does not change the expansion. *)
Lemma expand_even_prefix v : expand (subvector v 0 (2 * (size v / 2))) = expand v.
Proof.
  unfold subvector. rewrite Z.sub_0_r. simpl. rewrite drop_0.
  induction v as [| x | x y v IH] using list_pair_ind.
  - reflexivity.
  - reflexivity.
  - rewrite !size_cons.
    replace (1 + (1 + size v)) with (size v + 1 * 2) by lia.
    rewrite Z.div_add by lia.
    pose proof (size_nonneg v). pose proof (Z.div_pos (size v) 2).
    replace (Z.to_nat (2 * (size v / 2 + 1)))
      with (S (S (Z.to_nat (2 * (size v / 2))))) by lia.
    simpl. rewrite IH. reflexivity.
Qed.

(** ** The two dispatchers *)

Lemma compress_chunks_spec sched W data :
  schedule W sched -> 1 <= W < 2 ^ 32 -> fits data ->
  compress_chunks sched W data = Ok ([], concat (rle <$> chunks_of W data)).
Proof.
  intros Hsched HW Hfit. unfold compress_chunks, chunks_of.
  pose proof (size_nonneg data) as Hsz. pose proof Hfit as Hfit'.
  unfold fits in Hfit'.
  rewrite (run_threads_schedule _
    (fun i => rle (subvector data (boundary W (size data) (Z.of_nat i))
                                  (boundary W (size data) (Z.of_nat i + 1))))
    _ _ Hsched).
  - rewrite bind_Ok. rewrite <- list_fmap_compose. reflexivity.
  - intros i Hi. simpl.
    rewrite chunk_start_boundary, chunk_end_boundary by lia.
    pose proof (boundary_bounds W (size data) HW ltac:(lia) (Z.of_nat i)).
    pose proof (boundary_bounds W (size data) HW ltac:(lia) (Z.of_nat i + 1)).
    rewrite compressRLEChunk_spec by (try assumption; lia).
    reflexivity.
Qed.

Lemma half_bounds n :
  0 <= n <= max_size -> 0 <= n / 2 <= max_size /\ 2 * (n / 2) <= n.
Proof.
  intros Hn. pose proof (Z.mul_div_le n 2). pose proof (Z.div_pos n 2). lia.
Qed.

Lemma pair_chunks_even W v :
  1 <= W < 2 ^ 32 -> fits v ->
  Forall (fun c => size c mod 2 = 0) (pair_chunks W v).
Proof.
  intros HW Hfit. unfold pair_chunks. apply Forall_fmap, Forall_forall.
  intros i _. simpl.
  pose proof (size_nonneg v) as Hsz. unfold fits in Hfit.
  destruct (half_bounds (size v)) as [Hpc Hpc2]; [lia |].
  pose proof (boundary_bounds W (size v / 2) HW Hpc (Z.of_nat i)).
  pose proof (boundary_bounds W (size v / 2) HW Hpc (Z.of_nat i + 1)).
  pose proof (boundary_mono W (size v / 2) HW Hpc (Z.of_nat i)).
  rewrite subvector_length by lia.
  rewrite <- Z.mul_sub_distr_l, Z.mul_comm. apply Z.mod_mul. lia.
Qed.

Lemma concat_pair_chunks W v :
  1 <= W < 2 ^ 32 -> fits v ->
  concat (pair_chunks W v) = subvector v 0 (2 * (size v / 2)).
Proof.
  intros HW Hfit. unfold pair_chunks.
  pose proof (size_nonneg v) as Hsz. unfold fits in Hfit.
  destruct (half_bounds (size v)) as [Hpc Hpc2]; [lia |].
  rewrite (list_fmap_ext _
    (fun i => subvector v (2 * boundary W (size v / 2) (Z.of_nat i))
                          (2 * boundary W (size v / 2) (Z.of_nat (S i))))).
  2:{ intros i x _. do 3 f_equal. lia. }
  rewrite (concat_subvectors v
             (fun i => 2 * boundary W (size v / 2) (Z.of_nat i))).
  - rewrite Z2Nat.id by lia. rewrite boundary_last. reflexivity.
  - rewrite boundary_0; lia.
  - intros i Hi. replace (Z.of_nat (S i)) with (Z.of_nat i + 1) by lia.
    pose proof (boundary_mono W (size v / 2) HW Hpc (Z.of_nat i)). lia.
Qed.

Lemma decompress_chunks_spec sched W raw :
  schedule W sched -> 1 <= W < 2 ^ 32 -> fits raw ->
  decompress_chunks sched W raw (size raw)
  = Ok ([], concat (expand <$> pair_chunks W raw)).
Proof.
  intros Hsched HW Hfit. unfold decompress_chunks, pair_chunks.
  pose proof (size_nonneg raw) as Hsz. pose proof Hfit as Hfit'.
  unfold fits in Hfit'. pose proof max_size_lt as Hmax.
  destruct (half_bounds (size raw)) as [Hpc Hpc2]; [lia |].
  rewrite (run_threads_schedule _
    (fun i => expand
       (subvector raw (2 * boundary W (size raw / 2) (Z.of_nat i))
                      (2 * boundary W (size raw / 2) (Z.of_nat i + 1))))
    _ _ Hsched).
  - rewrite bind_Ok. rewrite <- list_fmap_compose. reflexivity.
  - intros i Hi. simpl.
    rewrite chunk_start_boundary, chunk_end_boundary by lia.
    pose proof (boundary_bounds W (size raw / 2) HW Hpc (Z.of_nat i)).
    pose proof (boundary_bounds W (size raw / 2) HW Hpc (Z.of_nat i + 1)).
    pose proof (boundary_mono W (size raw / 2) HW Hpc (Z.of_nat i)).
    set (s := boundary W (size raw / 2) (Z.of_nat i)) in *.
    set (e := boundary W (size raw / 2) (Z.of_nat i + 1)) in *.
    rewrite (size_t_small (s * 2)), (size_t_small (e * 2)) by lia.
    rewrite (size_t_small (e * 2 - s * 2)) by lia.
    unfold range_ctor.
    destruct (Z.leb_spec (s * 2) (e * 2)); [| lia].
    destruct (Z.leb_spec (e * 2) (size raw)); [| lia].
    rewrite andb_true_l, bind_Ok.
    assert (size (subvector raw (s * 2) (e * 2)) = e * 2 - s * 2) as Hlen
      by (apply subvector_length; lia).
    rewrite decompressRLEChunk_spec.
    + rewrite <- Hlen, subvector_all.
      replace (s * 2) with (2 * s) by lia. replace (e * 2) with (2 * e) by lia.
      reflexivity.
    + lia.
    + lia.
    + unfold fits. lia.
    + replace (e * 2 - s * 2 - 0) with ((e - s) * 2) by lia.
      apply Z.mod_mul. lia.
Qed.

(** Decoding by chunks of pairs is decoding the whole payload. *)
Lemma expand_pair_chunks W raw :
  1 <= W < 2 ^ 32 -> fits raw ->
  concat (expand <$> pair_chunks W raw) = expand raw.
Proof.
  intros HW Hfit.
  rewrite <- expand_concat by (apply pair_chunks_even; assumption).
  rewrite concat_pair_chunks by assumption.
  apply expand_even_prefix.
Qed.

Lemma numThreads_range hw : 0 <= hw < 2 ^ 32 -> 1 <= numThreads hw < 2 ^ 32.
Proof. intros H. unfold numThreads. destruct (Z.eqb_spec hw 0); lia. Qed.

(** ** The two file operations *)

Lemma compressFile_spec sched hw data :
  data <> [] -> schedule (numThreads hw) sched -> 0 <= hw < 2 ^ 32 ->
  fits data ->
  compressFile sched hw data
  = Ok (Outcome [] (Some
      (if size (encoded (numThreads hw) data) >=? size data
       then chr_U :: data
       else chr_C :: encoded (numThreads hw) data))).
Proof.
  intros Hne Hsched Hhw Hfit. unfold compressFile.
  rewrite bool_decide_eq_false_2 by exact Hne.
  rewrite compress_chunks_spec;
    [| exact Hsched | apply numThreads_range; exact Hhw | exact Hfit].
  reflexivity.
Qed.

Lemma decompressFile_C_spec sched hw raw :
  schedule (numThreads hw) sched -> 0 <= hw < 2 ^ 32 -> fits (chr_C :: raw) ->
  decompressFile sched hw (chr_C :: raw) = Ok (Outcome [] (Some (expand raw))).
Proof.
  intros Hsched Hhw Hfit. unfold decompressFile.
  pose proof (size_nonneg raw) as Hsz. pose proof max_size_lt as Hmax.
  unfold fits in Hfit. rewrite size_cons in *.
  destruct (Z.ltb_spec (1 + size raw) 1); [lia |].
  unfold at_. simpl. rewrite drop_0.
  replace (1 + size raw - 1) with (size raw) by lia.
  rewrite size_t_small by lia.
  assert (fits raw) as Hfit' by (unfold fits; lia).
  rewrite decompress_chunks_spec;
    [| exact Hsched | apply numThreads_range; exact Hhw | exact Hfit'].
  rewrite expand_pair_chunks;
    [| apply numThreads_range; exact Hhw | exact Hfit'].
  reflexivity.
Qed.

Lemma decompressFile_U sched hw payload :
  decompressFile sched hw (chr_U :: payload) = Ok (Outcome [] (Some payload)).
Proof.
  unfold decompressFile. rewrite size_cons.
  pose proof (size_nonneg payload).
  destruct (Z.ltb_spec (1 + size payload) 1); [lia |]. reflexivity.
Qed.

Lemma encoded_expand W data :
  1 <= W < 2 ^ 32 -> fits data -> expand (encoded W data) = data.
Proof.
  intros HW Hfit. unfold encoded.
  rewrite expand_concat.
  - rewrite <- list_fmap_compose.
    rewrite (list_fmap_ext _ id (chunks_of W data)).
    + rewrite list_fmap_id. apply concat_chunks_of; assumption.
    + intros i x _. simpl. apply expand_rle.
  - apply Forall_fmap, Forall_forall. intros x _. simpl. apply rle_even.
Qed.

(** * Properties of the specification *)

(** C1 (as amended).  For every non-empty byte buffer [B] and all worker
    counts, compressing [B] writes a container, and decompressing that
    container writes [B] exactly, without any diagnostic, whatever the
    worker counts and the thread schedules of the two directions. *)
Theorem roundtrip_nonempty sched1 sched2 hw1 hw2 (B : list char) :
  B <> [] -> size B < max_size ->
  0 <= hw1 < 2 ^ 32 -> 0 <= hw2 < 2 ^ 32 ->
  schedule (numThreads hw1) sched1 -> schedule (numThreads hw2) sched2 ->
  exists container,
    compressFile sched1 hw1 B = Ok (Outcome [] (Some container)) /\
    decompressFile sched2 hw2 container = Ok (Outcome [] (Some B)).
Proof.
  intros Hne Hsize Hhw1 Hhw2 Hs1 Hs2.
  assert (fits B) as Hfit by (unfold fits; lia).
  rewrite compressFile_spec by assumption.
  destruct (size (encoded (numThreads hw1) B) >=? size B) eqn:Hcmp.
  - exists (chr_U :: B). split; [reflexivity |]. apply decompressFile_U.
  - exists (chr_C :: encoded (numThreads hw1) B). split; [reflexivity |].
    rewrite decompressFile_C_spec; try assumption.
    + rewrite encoded_expand; [reflexivity | | exact Hfit].
      apply numThreads_range. exact Hhw1.
    + unfold fits. rewrite size_cons.
      rewrite Z.geb_leb in Hcmp. apply Z.leb_gt in Hcmp. lia.
Qed.

Lemma roundtrip_nonempty_witness :
  ([7; 7; 7; 7; 9; 9; 9; 9] <> [] /\
   size [7; 7; 7; 7; 9; 9; 9; 9] < max_size /\
   0 <= 3 < 2 ^ 32 /\ 0 <= 0 < 2 ^ 32 /\
   schedule (numThreads 3) [1; 0; 2]%nat /\
   schedule (numThreads 0) [0; 1]%nat) /\
  exists container,
    compressFile [1; 0; 2]%nat 3 [7; 7; 7; 7; 9; 9; 9; 9]
    = Ok (Outcome [] (Some container)) /\
    decompressFile [0; 1]%nat 0 container
    = Ok (Outcome [] (Some [7; 7; 7; 7; 9; 9; 9; 9])).
Proof.
  assert ([7; 7; 7; 7; 9; 9; 9; 9] <> []) as H1 by discriminate.
  assert (size [7; 7; 7; 7; 9; 9; 9; 9] < max_size) as H2
    by (vm_compute; reflexivity).
  assert (0 <= 3 < 2 ^ 32) as H3 by lia.
  assert (0 <= 0 < 2 ^ 32) as H4 by lia.
  assert (schedule (numThreads 3) [1; 0; 2]%nat) as H5
    by (unfold schedule; vm_compute; apply perm_swap).
  assert (schedule (numThreads 0) [0; 1]%nat) as H6
    by (unfold schedule; vm_compute; reflexivity).
  split; [auto 10 |].
  apply (roundtrip_nonempty [1; 0; 2]%nat [0; 1]%nat 3 0
           [7; 7; 7; 7; 9; 9; 9; 9] H1 H2 H3 H4 H5 H6).
Defined.

(** C1, as the specification states it, fails on the empty buffer: no
    container is written for it, so there is nothing to decompress. *)
Lemma roundtrip_empty_counterexample :
  compressFile [0; 1]%nat 0 [] = Ok (Outcome [EmptyInput] None) /\
  ~ exists container,
      compressFile [0; 1]%nat 0 [] = Ok (Outcome [] (Some container)) /\
      decompressFile [0; 1]%nat 0 container = Ok (Outcome [] (Some [])).
Proof.
  split; [reflexivity |].
  intros (container & Hc & _). discriminate Hc.
Qed.

(** C3 (as amended).  The empty buffer is refused by the encoder: it prints
    its diagnostic and writes no container.  Decoding the one-byte
    container ['U'] is not an error and writes a zero-length buffer. *)
Theorem empty_input sched hw :
  compressFile sched hw [] = Ok (Outcome [EmptyInput] None) /\
  decompressFile sched hw [chr_U] = Ok (Outcome [] (Some [])).
Proof. split; reflexivity. Qed.

(** C3, as the specification states it, fails: encoding the empty buffer
    does not yield the one-byte container ['U'], it yields a diagnostic and
    no container. *)
Lemma empty_input_counterexample :
  compressFile [0; 1]%nat 0 [] = Ok (Outcome [EmptyInput] None) /\
  compressFile [0; 1]%nat 0 [] <> Ok (Outcome [] (Some [chr_U])).
Proof. split; [reflexivity | discriminate]. Qed.

(** ** Splitting a buffer never shortens its code *)

(** The count the run starts with changes the length of the code by at most
    one pair. *)
Lemma rle_run_start c n m l :
  1 <= n <= m -> m <= 255 ->
  size (rle_run c n l) <= size (rle_run c m l) <= size (rle_run c n l) + 2.
Proof.
  revert c n m. induction l as [| d l IH]; intros c n m Hn Hm.
  - unfold size. simpl. lia.
  - cbn [rle_run].
    destruct (Z.eqb_spec d c) as [-> | Hne]; cbn [andb];
      [| rewrite !size_cons; lia].
    destruct (Z.ltb_spec n 255) as [Hn' | Hn'], (Z.ltb_spec m 255) as [Hm' | Hm'].
    + apply IH; lia.
    + rewrite !size_cons.
      pose proof (IH c 1 (n + 1) ltac:(lia) ltac:(lia)). lia.
    + lia.
    + rewrite !size_cons. lia.
Qed.

Lemma rle_run_app_first c n b :
  1 <= n <= 255 -> size (rle_run c n b) <= 2 + size (rle b).
Proof.
  intros Hn. destruct b as [| d b]; [unfold size; simpl; lia |].
  cbn [rle_run rle].
  destruct ((d =? c) && (n <? 255)) eqn:Hcond.
  - apply andb_true_iff in Hcond as [Hd Hlt].
    apply Z.eqb_eq in Hd. apply Z.ltb_lt in Hlt. subst d.
    pose proof (rle_run_start c 1 (n + 1) b ltac:(lia) ltac:(lia)). lia.
  - rewrite !size_cons. lia.
Qed.

Lemma rle_run_app c n a b :
  1 <= n <= 255 ->
  size (rle_run c n (a ++ b)) <= size (rle_run c n a) + size (rle b).
Proof.
  revert c n. induction a as [| d a IH]; intros c n Hn.
  - pose proof (rle_run_app_first c n b Hn) as Hb.
    change (size (rle_run c n [])) with 2. exact Hb.
  - cbn [app rle_run].
    destruct ((d =? c) && (n <? 255)) eqn:Hcond.
    + apply andb_true_iff in Hcond as [_ Hlt]. apply Z.ltb_lt in Hlt.
      apply IH. lia.
    + rewrite !size_cons. specialize (IH d 1 ltac:(lia)). lia.
Qed.

Lemma rle_app a b : size (rle (a ++ b)) <= size (rle a) + size (rle b).
Proof.
  destruct a as [| c a].
  - change (size (rle [])) with 0. simpl. lia.
  - apply rle_run_app. lia.
Qed.

Lemma rle_concat (chunks : list (list char)) :
  size (rle (concat chunks)) <= size (concat (rle <$> chunks)).
Proof.
  induction chunks as [| c chunks IH].
  - reflexivity.
  - rewrite fmap_cons. cbn [concat]. rewrite size_app.
    pose proof (rle_app c (concat chunks)). lia.
Qed.

(** What the threads produce is at least as long as the code of the
    buffer taken as one chunk. *)
Lemma encoded_size W data :
  1 <= W < 2 ^ 32 -> fits data -> size (rle data) <= size (encoded W data).
Proof.
  intros HW Hfit. unfold encoded.
  rewrite <- (concat_chunks_of W data HW Hfit) at 1. apply rle_concat.
Qed.

Lemma compressRLEChunk_whole data :
  fits data -> compressRLEChunk data 0 (size data) = Ok (rle data).
Proof.
  intros Hfit. rewrite compressRLEChunk_spec; try assumption; try lia.
  rewrite subvector_all. reflexivity.
Qed.

(** ** Buffers without two equal neighbours *)

Lemma alternating_tail x l : alternating (x :: l) = true -> alternating l = true.
Proof.
  destruct l as [| y l]; [reflexivity |].
  simpl. intros H. apply andb_true_iff in H as [_ H]. exact H.
Qed.

Lemma alternating_drop n l : alternating l = true -> alternating (drop n l) = true.
Proof.
  revert l. induction n as [| n IH]; intros l H; [exact H |].
  destruct l as [| x l]; [reflexivity |].
  simpl. apply IH. apply (alternating_tail x). exact H.
Qed.

Lemma alternating_take n l : alternating l = true -> alternating (take n l) = true.
Proof.
  revert l. induction n as [| n IH]; intros l H; [reflexivity |].
  destruct l as [| x l]; [reflexivity |].
  pose proof (IH l (alternating_tail x l H)) as IHl.
  destruct l as [| y l]; [destruct n; reflexivity |].
  destruct n as [| n]; [reflexivity |].
  simpl in H. apply andb_true_iff in H as [Hxy _].
  change (alternating (x :: y :: take n l) = true).
  change (alternating (y :: take n l) = true) in IHl.
  simpl. simpl in IHl. rewrite Hxy, IHl. reflexivity.
Qed.

Lemma rle_run_alternating c l :
  alternating (c :: l) = true -> size (rle_run c 1 l) = 2 * size (c :: l).
Proof.
  revert c. induction l as [| d l IH]; intros c H.
  - reflexivity.
  - pose proof (alternating_tail _ _ H) as Ht.
    simpl in H. apply andb_true_iff in H as [Hcd _].
    simpl. rewrite Z.eqb_sym in Hcd.
    apply negb_true_iff in Hcd. rewrite Hcd. simpl.
    rewrite !size_cons. rewrite IH by exact Ht. rewrite !size_cons. lia.
Qed.

Lemma rle_alternating l : alternating l = true -> size (rle l) = 2 * size l.
Proof.
  destruct l as [| c l]; [reflexivity |]. apply rle_run_alternating.
Qed.

Lemma size_concat_rle_alternating (chunks : list (list char)) :
  Forall (fun c => alternating c = true) chunks ->
  size (concat (rle <$> chunks)) = 2 * size (concat chunks).
Proof.
  induction 1 as [| c chunks Hc _ IH].
  - reflexivity.
  - rewrite fmap_cons. cbn [concat].
    rewrite !size_app, IH, rle_alternating by exact Hc. lia.
Qed.

Lemma encoded_alternating W data :
  1 <= W < 2 ^ 32 -> fits data -> alternating data = true ->
  size (encoded W data) = 2 * size data.
Proof.
  intros HW Hfit Halt. unfold encoded.
  rewrite size_concat_rle_alternating.
  - rewrite concat_chunks_of by assumption. reflexivity.
  - unfold chunks_of. apply Forall_fmap, Forall_forall. intros i _. simpl.
    unfold subvector. apply alternating_take, alternating_drop. exact Halt.
Qed.

(** C4 (as amended).  For every non-empty buffer [B] the threads return an
    encoded output, and the container is chosen by comparing lengths: ['C']
    followed by the encoded bytes when these are strictly fewer than the
    bytes of [B], and ['U'] followed by [B] otherwise.  In particular a
    buffer that the encoder, run on it as a single chunk, does not shrink
    is stored as ['U'] followed by [B], and so is every buffer without two
    equal neighbouring bytes. *)
Theorem header_selection sched hw (B : list char) :
  B <> [] -> fits B -> 0 <= hw < 2 ^ 32 -> schedule (numThreads hw) sched ->
  exists compressed,
    compress_chunks sched (numThreads hw) B = Ok ([], compressed) /\
    (size compressed < size B ->
     compressFile sched hw B = Ok (Outcome [] (Some (chr_C :: compressed)))) /\
    (size B <= size compressed ->
     compressFile sched hw B = Ok (Outcome [] (Some (chr_U :: B)))) /\
    (forall single,
       compressRLEChunk B 0 (size B) = Ok single -> size B <= size single ->
       compressFile sched hw B = Ok (Outcome [] (Some (chr_U :: B)))) /\
    (alternating B = true ->
     compressFile sched hw B = Ok (Outcome [] (Some (chr_U :: B)))).
Proof.
  intros Hne Hfit Hhw Hsched.
  pose proof (numThreads_range hw Hhw) as HW.
  exists (encoded (numThreads hw) B).
  split; [apply compress_chunks_spec; assumption |].
  rewrite compressFile_spec by assumption.
  rewrite Z.geb_leb.
  pose proof (encoded_size (numThreads hw) B HW Hfit) as Hsingle.
  destruct (Z.leb_spec (size B) (size (encoded (numThreads hw) B)))
    as [Hle | Hlt].
  - split; [intros; lia |]. split; [reflexivity |].
    split; [reflexivity | reflexivity].
  - split; [reflexivity |]. split; [intros; lia |]. split.
    + intros single Hrun Hle. rewrite compressRLEChunk_whole in Hrun by exact Hfit.
      inversion Hrun; subst single. lia.
    + intros Halt. rewrite encoded_alternating in Hlt by assumption.
      pose proof (size_nonneg B). lia.
Qed.

Lemma header_selection_witness :
  ([0; 1; 0; 1; 0; 1] <> [] /\ fits [0; 1; 0; 1; 0; 1] /\
   0 <= 2 < 2 ^ 32 /\ schedule (numThreads 2) [0; 1]%nat) /\
  exists compressed,
    compress_chunks [0; 1]%nat (numThreads 2) [0; 1; 0; 1; 0; 1]
    = Ok ([], compressed) /\
    (size compressed < size [0; 1; 0; 1; 0; 1] ->
     compressFile [0; 1]%nat 2 [0; 1; 0; 1; 0; 1]
     = Ok (Outcome [] (Some (chr_C :: compressed)))) /\
    (size [0; 1; 0; 1; 0; 1] <= size compressed ->
     compressFile [0; 1]%nat 2 [0; 1; 0; 1; 0; 1]
     = Ok (Outcome [] (Some (chr_U :: [0; 1; 0; 1; 0; 1])))) /\
    (forall single,
       compressRLEChunk [0; 1; 0; 1; 0; 1] 0 (size [0; 1; 0; 1; 0; 1])
       = Ok single ->
       size [0; 1; 0; 1; 0; 1] <= size single ->
       compressFile [0; 1]%nat 2 [0; 1; 0; 1; 0; 1]
       = Ok (Outcome [] (Some (chr_U :: [0; 1; 0; 1; 0; 1])))) /\
    (alternating [0; 1; 0; 1; 0; 1] = true ->
     compressFile [0; 1]%nat 2 [0; 1; 0; 1; 0; 1]
     = Ok (Outcome [] (Some (chr_U :: [0; 1; 0; 1; 0; 1])))).
Proof.
  assert ([0; 1; 0; 1; 0; 1] <> []) as H1 by discriminate.
  assert (fits [0; 1; 0; 1; 0; 1]) as H2
    by (unfold fits; vm_compute; discriminate).
  assert (0 <= 2 < 2 ^ 32) as H3 by lia.
  assert (schedule (numThreads 2) [0; 1]%nat) as H4
    by (unfold schedule; vm_compute; reflexivity).
  split; [auto |].
  apply (header_selection [0; 1]%nat 2 [0; 1; 0; 1; 0; 1] H1 H2 H3 H4).
Defined.

(** C4, as the specification states it, fails on the empty buffer: its
    encoded output is not shorter than the buffer, yet no ['U'] container
    is written. *)
Lemma header_selection_counterexample :
  compress_chunks [0; 1]%nat (numThreads 0) [] = Ok ([], []) /\
  ~ size [] < size [] /\
  compressFile [0; 1]%nat 0 [] = Ok (Outcome [EmptyInput] None) /\
  compressFile [0; 1]%nat 0 [] <> Ok (Outcome [] (Some (chr_U :: []))).
Proof.
  split; [reflexivity |]. split; [unfold size; simpl; lia |].
  split; [reflexivity | discriminate].
Qed.

(** ** Runs of one byte *)

Lemma rle_run_replicate c k (m : nat) :
  1 <= k <= 255 ->
  rle_run c k (replicate m c) =
  if k + Z.of_nat m <=? 255 then [c; to_char (k + Z.of_nat m)]
  else c :: to_char 255 :: rle (replicate (Z.to_nat (k + Z.of_nat m - 255)) c).
Proof.
  revert k. induction m as [| m IH]; intros k Hk.
  - simpl. rewrite Z.add_0_r.
    destruct (Z.leb_spec k 255); [reflexivity | lia].
  - cbn [replicate rle_run]. rewrite Z.eqb_refl. cbn [andb].
    destruct (Z.ltb_spec k 255) as [Hlt | Hge].
    + rewrite IH by lia.
      replace (k + 1 + Z.of_nat m) with (k + Z.of_nat (S m)) by lia.
      reflexivity.
    + assert (k = 255) as -> by lia.
      destruct (Z.leb_spec (255 + Z.of_nat (S m)) 255); [lia |].
      replace (Z.to_nat (255 + Z.of_nat (S m) - 255)) with (S m) by lia.
      reflexivity.
Qed.

(** A run of at most 255 bytes is one pair; of a longer run the first 255
    bytes are one pair and the rest is encoded after it. *)
Lemma rle_replicate c (n : nat) :
  (1 <= n)%nat ->
  rle (replicate n c) =
  if Z.of_nat n <=? 255 then [c; to_char (Z.of_nat n)]
  else c :: to_char 255 :: rle (replicate (n - 255) c).
Proof.
  intros Hn. destruct n as [| m]; [lia |].
  simpl rle. rewrite rle_run_replicate by lia.
  replace (1 + Z.of_nat m) with (Z.of_nat (S m)) by lia.
  destruct (Z.of_nat (S m) <=? 255); [reflexivity |].
  replace (Z.to_nat (Z.of_nat (S m) - 255)) with (S m - 255)%nat by lia.
  reflexivity.
Qed.

(** The pairs of a run of [255 * q + r] bytes. *)
Lemma rle_replicate_closed c (q : nat) r :
  0 <= r < 255 ->
  rle (replicate (255 * q + Z.to_nat r) c) =
  concat (replicate q [c; 255]) ++ (if r =? 0 then [] else [c; r]).
Proof.
  intros Hr. induction q as [| q IH].
  - simpl. destruct (Z.eqb_spec r 0) as [-> | Hne]; [reflexivity |].
    rewrite rle_replicate by lia.
    rewrite Z2Nat.id by lia.
    destruct (Z.leb_spec r 255); [| lia].
    unfold to_char. rewrite Z.mod_small by lia. reflexivity.
  - rewrite rle_replicate by lia.
    destruct (Z.leb_spec (Z.of_nat (255 * S q + Z.to_nat r)) 255) as [Hle | Hgt].
    + assert (q = 0%nat /\ r = 0) as [-> ->] by lia.
      simpl. f_equal.
    + replace (255 * S q + Z.to_nat r - 255)%nat
        with (255 * q + Z.to_nat r)%nat by lia.
      rewrite IH. reflexivity.
Qed.

(** C5.  On a range inside the buffer the chunk encoder returns a whole
    number of pairs, each with a count between 1 and 255.  A run of 256 or
    more equal bytes is split: its code starts with a pair of count 255 and
    goes on with the code of the rest of the run, which is not empty; for
    [255 * q + r] bytes it is [q] pairs of count 255 and then, when [r] is
    not zero, one pair of count [r].  A single chunk of 300 bytes [0xAB] is
    encoded as the two pairs [(0xAB, 255)], [(0xAB, 45)]. *)
Theorem run_cap (data : list char) (start end_ : Z) (c : char) (n : nat) :
  0 <= start -> end_ <= size data -> fits data ->
  (256 <= n)%nat -> Z.of_nat n <= max_size ->
  (exists out,
     compressRLEChunk data start end_ = Ok out /\
     size out mod 2 = 0 /\
     Forall count_ok (pairs_of out)) /\
  (exists rest,
     compressRLEChunk (replicate n c) 0 (Z.of_nat n) = Ok (c :: 255 :: rest) /\
     compressRLEChunk (replicate (n - 255) c) 0 (Z.of_nat (n - 255)) = Ok rest /\
     rest <> []) /\
  compressRLEChunk (replicate n c) 0 (Z.of_nat n)
  = Ok (concat (replicate (n / 255) [c; 255])
        ++ (if Z.of_nat (n mod 255) =? 0 then []
            else [c; Z.of_nat (n mod 255)])) /\
  compressRLEChunk (replicate 300 171) 0 300 = Ok [171; 255; 171; 45].
Proof.
  intros Hs He Hfit Hn Hmax.
  assert (forall m : nat, Z.of_nat m <= max_size ->
            compressRLEChunk (replicate m c) 0 (Z.of_nat m)
            = Ok (rle (replicate m c))) as Hrep.
  { intros m Hm. rewrite compressRLEChunk_spec.
    - replace (Z.of_nat m) with (size (replicate m c))
        by (unfold size; rewrite length_replicate; reflexivity).
      rewrite subvector_all. reflexivity.
    - lia.
    - unfold size. rewrite length_replicate. lia.
    - unfold fits, size. rewrite length_replicate. exact Hm. }
  split; [| split; [| split]].
  - exists (rle (subvector data start end_)).
    split; [apply compressRLEChunk_spec; assumption |].
    split; [apply rle_even | apply pairs_of_rle].
  - exists (rle (replicate (n - 255) c)).
    rewrite !Hrep by lia. rewrite (rle_replicate c n) by lia.
    destruct (Z.leb_spec (Z.of_nat n) 255); [lia |].
    split; [reflexivity |]. split; [reflexivity |].
    destruct (n - 255)%nat as [| m] eqn:Hm; [lia |].
    simpl. pose proof (rle_run_size c 1 (replicate m c)) as Hsz.
    intros Heq. rewrite Heq in Hsz. unfold size in Hsz. simpl in Hsz. lia.
  - rewrite Hrep by lia. f_equal.
    rewrite (Nat.div_mod_eq n 255) at 1.
    rewrite <- (Nat2Z.id (n mod 255)) at 1.
    apply rle_replicate_closed.
    pose proof (Nat.mod_upper_bound n 255). lia.
  - reflexivity.
Qed.

Lemma run_cap_witness :
  (0 <= 1 /\ 4 <= size [5; 5; 6; 6; 6] /\ fits [5; 5; 6; 6; 6] /\
   (256 <= 600)%nat /\ Z.of_nat 600 <= max_size) /\
  (exists out,
     compressRLEChunk [5; 5; 6; 6; 6] 1 4 = Ok out /\
     size out mod 2 = 0 /\
     Forall count_ok (pairs_of out)) /\
  (exists rest,
     compressRLEChunk (replicate 600 9) 0 (Z.of_nat 600) = Ok (9 :: 255 :: rest) /\
     compressRLEChunk (replicate (600 - 255) 9) 0 (Z.of_nat (600 - 255)) = Ok rest /\
     rest <> []) /\
  compressRLEChunk (replicate 600 9) 0 (Z.of_nat 600)
  = Ok (concat (replicate (600 / 255) [9; 255])
        ++ (if Z.of_nat (600 mod 255) =? 0 then []
            else [9; Z.of_nat (600 mod 255)])) /\
  compressRLEChunk (replicate 300 171) 0 300 = Ok [171; 255; 171; 45].
Proof.
  assert (0 <= 1) as H1 by lia.
  assert (4 <= size [5; 5; 6; 6; 6]) as H2 by (vm_compute; discriminate).
  assert (fits [5; 5; 6; 6; 6]) as H3 by (unfold fits; vm_compute; discriminate).
  assert (256 <= 600)%nat as H4 by lia.
  assert (Z.of_nat 600 <= max_size) as H5 by (vm_compute; discriminate).
  split; [auto 10 |].
  apply (run_cap [5; 5; 6; 6; 6] 1 4 9 600 H1 H2 H3 H4 H5).
Defined.

(** ** Ranges *)

Lemma ranges_lookup W L (i : nat) :
  1 <= W < 2 ^ 32 -> 0 <= L <= max_size -> Z.of_nat i < W ->
  ranges W L !! i
  = Some (boundary W L (Z.of_nat i), boundary W L (Z.of_nat i + 1)).
Proof.
  intros HW HL Hi. unfold ranges.
  rewrite list_lookup_fmap, lookup_seq_lt by lia. simpl.
  rewrite chunk_start_boundary, chunk_end_boundary by lia. reflexivity.
Qed.

Lemma ranges_length W L : length (ranges W L) = Z.to_nat W.
Proof. unfold ranges. rewrite length_fmap, length_seq. reflexivity. Qed.

Lemma ranges_lookup_inv W L (i : nat) s e :
  1 <= W < 2 ^ 32 -> 0 <= L <= max_size ->
  ranges W L !! i = Some (s, e) ->
  Z.of_nat i < W /\ s = boundary W L (Z.of_nat i)
  /\ e = boundary W L (Z.of_nat i + 1).
Proof.
  intros HW HL Hlook.
  assert (Z.of_nat i < W) as Hi.
  { apply lookup_lt_Some in Hlook. rewrite ranges_length in Hlook. lia. }
  rewrite ranges_lookup in Hlook by assumption.
  inversion Hlook. auto.
Qed.

Lemma boundary_monotone W L i j :
  1 <= W < 2 ^ 32 -> 0 <= L <= max_size -> 0 <= i <= j ->
  boundary W L i <= boundary W L j.
Proof.
  intros HW HL Hij.
  replace j with (i + Z.of_nat (Z.to_nat (j - i))) by lia.
  induction (Z.to_nat (j - i)) as [| n IH].
  - replace (i + Z.of_nat 0) with i by lia. lia.
  - pose proof (boundary_mono W L HW HL (i + Z.of_nat n)).
    replace (i + Z.of_nat (S n)) with (i + Z.of_nat n + 1) by lia. lia.
Qed.

Lemma boundary_cover W L x :
  1 <= W < 2 ^ 32 -> 0 <= L <= max_size -> 0 <= x < L ->
  exists i : nat,
    Z.of_nat i < W /\
    boundary W L (Z.of_nat i) <= x < boundary W L (Z.of_nat i + 1).
Proof.
  intros HW HL Hx.
  assert (forall n : nat, Z.of_nat n <= W -> x < boundary W L (Z.of_nat n) ->
            exists i : nat, (i < n)%nat /\
              boundary W L (Z.of_nat i) <= x < boundary W L (Z.of_nat i + 1))
    as Hsearch.
  { induction n as [| n IH]; intros Hn Hlt.
    - simpl in Hlt. rewrite boundary_0 in Hlt by lia. lia.
    - destruct (Z.lt_ge_cases x (boundary W L (Z.of_nat n))) as [Hbelow | Habove].
      + destruct (IH ltac:(lia) Hbelow) as (i & Hi & Hb).
        exists i. split; [lia | exact Hb].
      + exists n. split; [lia |].
        replace (Z.of_nat n + 1) with (Z.of_nat (S n)) by lia. lia. }
  destruct (Hsearch (Z.to_nat W)) as (i & Hi & Hb).
  - lia.
  - rewrite Z2Nat.id by lia. rewrite boundary_last. lia.
  - exists i. split; [lia | exact Hb].
Qed.

Lemma compressRLEChunk_empty data s : compressRLEChunk data s s = Ok [].
Proof.
  unfold compressRLEChunk. rewrite compress_loop_S, Z.ltb_irrefl. reflexivity.
Qed.

Lemma decompressRLEChunk_empty data s : decompressRLEChunk data s s = Ok ([], []).
Proof.
  unfold decompressRLEChunk. rewrite Z.sub_diag.
  change (size_t 0 mod 2 =? 0) with true. cbn [negb].
  rewrite decompress_loop_S, Z.ltb_irrefl. reflexivity.
Qed.

(** C6.  For a length [L] and [W >= 1] workers the launch loop computes
    exactly [W] ranges; range [i] below the last is
    [i * (L / W), (i + 1) * (L / W)) and the last one ends at [L]; every
    range lies in [0, L], each starts where the one before ends, and every
    offset below [L] is in exactly one of them.  When [L < W] all ranges
    but the last are empty, and both the chunk encoder and the chunk
    decoder return an empty vector, without a diagnostic, on an empty
    range. *)
Theorem partition_ranges (W L : Z) (data : list char) (pos : Z) :
  1 <= W < 2 ^ 32 -> 0 <= L <= max_size ->
  length (ranges W L) = Z.to_nat W /\
  (forall i : nat, Z.of_nat i < W - 1 ->
     ranges W L !! i
     = Some (Z.of_nat i * (L / W), (Z.of_nat i + 1) * (L / W))) /\
  ranges W L !! Z.to_nat (W - 1) = Some ((W - 1) * (L / W), L) /\
  (forall (i : nat) s e, ranges W L !! i = Some (s, e) -> 0 <= s <= e /\ e <= L) /\
  (forall (i : nat) s e s' e',
     ranges W L !! i = Some (s, e) -> ranges W L !! S i = Some (s', e') ->
     s' = e) /\
  (forall x, 0 <= x < L ->
     exists i : nat,
       (exists s e, ranges W L !! i = Some (s, e) /\ s <= x < e) /\
       forall j : nat,
         (exists s e, ranges W L !! j = Some (s, e) /\ s <= x < e) -> j = i) /\
  (L < W -> forall i : nat, Z.of_nat i < W - 1 -> ranges W L !! i = Some (0, 0)) /\
  compressRLEChunk data pos pos = Ok [] /\
  decompressRLEChunk data pos pos = Ok ([], []).
Proof.
  intros HW HL.
  assert (forall i : nat, Z.of_nat i < W - 1 ->
            ranges W L !! i
            = Some (Z.of_nat i * (L / W), (Z.of_nat i + 1) * (L / W))) as Hinner.
  { intros i Hi. rewrite ranges_lookup by lia. unfold boundary.
    destruct (Z.ltb_spec (Z.of_nat i) W); [| lia].
    destruct (Z.ltb_spec (Z.of_nat i + 1) W); [| lia]. reflexivity. }
  split; [apply ranges_length |].
  split; [exact Hinner |].
  split.
  { rewrite ranges_lookup by lia. rewrite Z2Nat.id by lia. unfold boundary.
    destruct (Z.ltb_spec (W - 1) W); [| lia].
    destruct (Z.ltb_spec (W - 1 + 1) W); [lia |]. reflexivity. }
  split.
  { intros i s e Hlook.
    apply ranges_lookup_inv in Hlook as (Hi & -> & ->); try assumption.
    pose proof (boundary_bounds W L HW HL (Z.of_nat i)).
    pose proof (boundary_bounds W L HW HL (Z.of_nat i + 1)).
    pose proof (boundary_mono W L HW HL (Z.of_nat i)). lia. }
  split.
  { intros i s e s' e' H1 H2.
    apply ranges_lookup_inv in H1 as (_ & _ & ->); try assumption.
    apply ranges_lookup_inv in H2 as (_ & -> & _); try assumption.
    f_equal. lia. }
  split.
  { intros x Hx.
    destruct (boundary_cover W L x HW HL Hx) as (i & Hi & Hb).
    exists i. split.
    - eexists _, _. split; [apply ranges_lookup; assumption | exact Hb].
    - intros j (s & e & Hlook & Hse).
      apply ranges_lookup_inv in Hlook as (Hj & -> & ->); try assumption.
      destruct (Nat.lt_trichotomy j i) as [Hlt | [Heq | Hgt]]; [| exact Heq |].
      + pose proof (boundary_monotone W L (Z.of_nat j + 1) (Z.of_nat i) HW HL).
        lia.
      + pose proof (boundary_monotone W L (Z.of_nat i + 1) (Z.of_nat j) HW HL).
        lia. }
  split.
  { intros Hsmall i Hi. rewrite Hinner by exact Hi.
    rewrite Z.div_small by lia. do 2 f_equal; lia. }
  split; [apply compressRLEChunk_empty | apply decompressRLEChunk_empty].
Qed.

Lemma partition_ranges_witness :
  (1 <= 3 < 2 ^ 32 /\ 0 <= 10 <= max_size) /\
  ranges 3 10 = [(0, 3); (3, 6); (6, 10)] /\
  ranges 4 2 = [(0, 0); (0, 0); (0, 0); (0, 2)] /\
  length (ranges 3 10) = Z.to_nat 3 /\
  (forall i : nat, Z.of_nat i < 3 - 1 ->
     ranges 3 10 !! i
     = Some (Z.of_nat i * (10 / 3), (Z.of_nat i + 1) * (10 / 3))) /\
  ranges 3 10 !! Z.to_nat (3 - 1) = Some ((3 - 1) * (10 / 3), 10) /\
  (forall (i : nat) s e, ranges 3 10 !! i = Some (s, e) -> 0 <= s <= e /\ e <= 10) /\
  (forall (i : nat) s e s' e',
     ranges 3 10 !! i = Some (s, e) -> ranges 3 10 !! S i = Some (s', e') ->
     s' = e) /\
  (forall x, 0 <= x < 10 ->
     exists i : nat,
       (exists s e, ranges 3 10 !! i = Some (s, e) /\ s <= x < e) /\
       forall j : nat,
         (exists s e, ranges 3 10 !! j = Some (s, e) /\ s <= x < e) -> j = i) /\
  (10 < 3 -> forall i : nat, Z.of_nat i < 3 - 1 -> ranges 3 10 !! i = Some (0, 0)) /\
  compressRLEChunk [1; 2] 1 1 = Ok [] /\
  decompressRLEChunk [1; 2] 1 1 = Ok ([], []).
Proof.
  assert (1 <= 3 < 2 ^ 32) as H1 by lia.
  assert (0 <= 10 <= max_size) as H2 by (vm_compute; split; discriminate).
  split; [auto |]. split; [reflexivity |]. split; [reflexivity |].
  apply (partition_ranges 3 10 [1; 2] 1 H1 H2).
Defined.

(** ** Sequential processing of the chunks *)

Lemma mapM_Ok {A B : Type} (f : A -> result B) (g : A -> B) (l : list A) :
  Forall (fun x => f x = Ok (g x)) l -> mapM f l = Ok (g <$> l).
Proof.
  induction 1 as [| x l Hx _ IH]; [reflexivity |].
  change (mapM f (x :: l)) with (y ← f x; k ← mapM f l; mret (y :: k)).
  rewrite Hx, bind_Ok, IH. reflexivity.
Qed.

Lemma ranges_boundary W L :
  1 <= W < 2 ^ 32 -> 0 <= L <= max_size ->
  ranges W L
  = (fun i : nat => (boundary W L (Z.of_nat i), boundary W L (Z.of_nat i + 1)))
    <$> seq 0 (Z.to_nat W).
Proof.
  intros HW HL. unfold ranges. apply list_fmap_ext.
  intros i x Hx. apply lookup_seq in Hx as [-> Hi]. simpl.
  rewrite chunk_start_boundary, chunk_end_boundary by lia. reflexivity.
Qed.

Lemma sequential_compress_spec W data :
  1 <= W < 2 ^ 32 -> fits data ->
  sequential_compress W data = Ok ([], encoded W data).
Proof.
  intros HW Hfit. unfold sequential_compress, encoded, chunks_of.
  pose proof (size_nonneg data) as Hsz. pose proof Hfit as Hfit'.
  unfold fits in Hfit'.
  rewrite ranges_boundary by lia.
  rewrite (mapM_Ok _ (fun r : Z * Z => rle (subvector data r.1 r.2))).
  - rewrite bind_Ok, <- !list_fmap_compose. reflexivity.
  - apply Forall_fmap, Forall_forall. intros i _. simpl.
    pose proof (boundary_bounds W (size data) HW ltac:(lia) (Z.of_nat i)).
    pose proof (boundary_bounds W (size data) HW ltac:(lia) (Z.of_nat i + 1)).
    pose proof (boundary_mono W (size data) HW ltac:(lia) (Z.of_nat i)).
    set (s := boundary W (size data) (Z.of_nat i)) in *.
    set (e := boundary W (size data) (Z.of_nat i + 1)) in *.
    assert (size (subvector data s e) = e - s) as Hlen
      by (apply subvector_length; lia).
    rewrite compressRLEChunk_spec.
    + rewrite <- Hlen, subvector_all. reflexivity.
    + lia.
    + lia.
    + unfold fits. lia.
Qed.

Lemma sequential_decompress_spec W raw :
  1 <= W < 2 ^ 32 -> fits raw ->
  sequential_decompress W raw = Ok ([], concat (expand <$> pair_chunks W raw)).
Proof.
  intros HW Hfit. unfold sequential_decompress, pair_chunks.
  pose proof (size_nonneg raw) as Hsz. pose proof Hfit as Hfit'.
  unfold fits in Hfit'.
  destruct (half_bounds (size raw)) as [Hpc Hpc2]; [lia |].
  rewrite ranges_boundary by lia.
  rewrite (mapM_Ok _ (fun r : Z * Z =>
             ([], expand (subvector raw (2 * r.1) (2 * r.2))))).
  - rewrite bind_Ok, <- !list_fmap_compose. f_equal. f_equal.
    induction (seq 0 (Z.to_nat W)) as [| i l IH]; [reflexivity |].
    rewrite fmap_cons. cbn [concat]. rewrite IH. reflexivity.
  - apply Forall_fmap, Forall_forall. intros i _. simpl.
    pose proof (boundary_bounds W (size raw / 2) HW Hpc (Z.of_nat i)).
    pose proof (boundary_bounds W (size raw / 2) HW Hpc (Z.of_nat i + 1)).
    pose proof (boundary_mono W (size raw / 2) HW Hpc (Z.of_nat i)).
    set (s := boundary W (size raw / 2) (Z.of_nat i)) in *.
    set (e := boundary W (size raw / 2) (Z.of_nat i + 1)) in *.
    assert (size (subvector raw (2 * s) (2 * e)) = 2 * e - 2 * s) as Hlen
      by (apply subvector_length; lia).
    rewrite decompressRLEChunk_spec.
    + rewrite <- Hlen, subvector_all. reflexivity.
    + lia.
    + lia.
    + unfold fits. lia.
    + replace (2 * e - 2 * s - 0) with ((e - s) * 2) by lia.
      apply Z.mod_mul. lia.
Qed.

(** C7.  Whatever the order in which the worker threads run, what the
    encoding threads leave after the join and the merge is the result of
    encoding the chunks one after the other, each as a buffer of its own,
    and putting the results end to end in index order; the same holds for
    the decoding threads.  Both return a result and print nothing.  A run
    therefore never crosses a chunk boundary: eight bytes [0x41] in one
    chunk give the pair [(0x41, 8)], and split at offset 4 between two
    workers they give [(0x41, 4)], [(0x41, 4)]. *)
Theorem dispatcher_sequential sched W (data : list char) :
  schedule W sched -> 1 <= W < 2 ^ 32 -> fits data ->
  compress_chunks sched W data = sequential_compress W data /\
  decompress_chunks sched W data (size data) = sequential_decompress W data /\
  (exists out, sequential_compress W data = Ok ([], out)) /\
  (exists out, sequential_decompress W data = Ok ([], out)) /\
  compressRLEChunk (replicate 8 65) 0 8 = Ok [65; 8] /\
  ranges 2 8 = [(0, 4); (4, 8)] /\
  compressRLEChunk (replicate 8 65) 0 4 = Ok [65; 4] /\
  compressRLEChunk (replicate 8 65) 4 8 = Ok [65; 4] /\
  compress_chunks [0; 1]%nat 2 (replicate 8 65) = Ok ([], [65; 4; 65; 4]) /\
  compress_chunks [1; 0]%nat 2 (replicate 8 65) = Ok ([], [65; 4; 65; 4]).
Proof.
  intros Hsched HW Hfit.
  rewrite compress_chunks_spec, decompress_chunks_spec by assumption.
  rewrite sequential_compress_spec, sequential_decompress_spec by assumption.
  split; [reflexivity |]. split; [reflexivity |].
  split; [eexists; reflexivity |]. split; [eexists; reflexivity |].
  repeat split; reflexivity.
Qed.

Lemma dispatcher_sequential_witness :
  (schedule 3 [2; 0; 1]%nat /\ 1 <= 3 < 2 ^ 32 /\ fits [1; 1; 1; 1; 2; 2; 2]) /\
  compress_chunks [2; 0; 1]%nat 3 [1; 1; 1; 1; 2; 2; 2]
  = sequential_compress 3 [1; 1; 1; 1; 2; 2; 2] /\
  compress_chunks [2; 0; 1]%nat 3 [1; 1; 1; 1; 2; 2; 2]
  = Ok ([], [1; 2; 1; 2; 2; 3]).
Proof.
  assert (schedule 3 [2; 0; 1]%nat) as Hsched.
  { unfold schedule. vm_compute.
    apply perm_trans with [0; 2; 1]%nat; [apply perm_swap |].
    apply perm_skip, perm_swap. }
  assert (1 <= 3 < 2 ^ 32) as HW by lia.
  assert (fits [1; 1; 1; 1; 2; 2; 2]) as Hfit
    by (unfold fits; vm_compute; discriminate).
  split; [auto |].
  split; [| reflexivity].
  apply (dispatcher_sequential [2; 0; 1]%nat 3 [1; 1; 1; 1; 2; 2; 2]
           Hsched HW Hfit).
Defined.

(** C8.  A container whose first byte is neither ['C'] nor ['U'] is
    refused: the decoder prints its diagnostic and writes nothing.  With
    the header ['U'] the bytes after the header are written unchanged. *)
Theorem header_dispatch sched hw (h : char) (payload : list char) :
  (h <> chr_C -> h <> chr_U ->
   decompressFile sched hw (h :: payload) = Ok (Outcome [UnknownHeader] None)) /\
  decompressFile sched hw (chr_U :: payload) = Ok (Outcome [] (Some payload)).
Proof.
  split; [| apply decompressFile_U].
  intros HC HU. unfold decompressFile. rewrite size_cons.
  pose proof (size_nonneg payload).
  destruct (Z.ltb_spec (1 + size payload) 1); [lia |].
  unfold at_. simpl.
  destruct (Z.eqb_spec h chr_C); [contradiction |].
  destruct (Z.eqb_spec h chr_U); [contradiction |]. reflexivity.
Qed.

Lemma header_dispatch_witness :
  (88 <> chr_C /\ 88 <> chr_U) /\
  decompressFile [0; 1]%nat 2 [88; 65; 3] = Ok (Outcome [UnknownHeader] None) /\
  decompressFile [0; 1]%nat 2 [chr_U; 65; 3] = Ok (Outcome [] (Some [65; 3])).
Proof.
  assert (88 <> chr_C) as HC by discriminate.
  assert (88 <> chr_U) as HU by discriminate.
  split; [auto |].
  destruct (header_dispatch [0; 1]%nat 2 88 [65; 3]) as [Hbad Hraw].
  split; [exact (Hbad HC HU) | exact Hraw].
Defined.

(** ** The slots of the workers *)

(** Threads that run in any order, some of them perhaps not at all, leave
    their results in their own slots. *)
Lemma run_threads_partial job f n sched log slots :
  Forall (fun i => (i < n)%nat) sched ->
  (forall i, (i < n)%nat -> job i = Ok ([], f i)) ->
  run_threads job sched (log, slots) = Ok (log, fill f sched slots).
Proof.
  intros Hin Hjob.
  set (job' := fun i => if decide (i < n)%nat then job i else Ok ([], f i)).
  assert (forall st, run_threads job sched st = run_threads job' sched st) as Heq.
  { induction Hin as [| i sched Hi _ IH]; intros st; [reflexivity |].
    simpl. unfold thread_step, job'.
    destruct (decide (i < n)%nat) as [_ | Hge]; [| contradiction].
    destruct (job i ≫= _); try reflexivity.
    rewrite !bind_Ok. apply IH. }
  rewrite Heq. apply (run_threads_fill job' f).
  intros i. unfold job'. destruct (decide (i < n)%nat); auto.
Qed.

Lemma chunks_of_lookup W v (i : nat) :
  (i < Z.to_nat W)%nat ->
  chunks_of W v !! i
  = Some (subvector v (boundary W (size v) (Z.of_nat i))
                      (boundary W (size v) (Z.of_nat i + 1))).
Proof.
  intros Hi. unfold chunks_of.
  rewrite list_lookup_fmap, lookup_seq_lt by exact Hi. reflexivity.
Qed.

Lemma pair_chunks_lookup W v (i : nat) :
  (i < Z.to_nat W)%nat ->
  pair_chunks W v !! i
  = Some (subvector v (2 * boundary W (size v / 2) (Z.of_nat i))
                      (2 * boundary W (size v / 2) (Z.of_nat i + 1))).
Proof.
  intros Hi. unfold pair_chunks.
  rewrite list_lookup_fmap, lookup_seq_lt by exact Hi. reflexivity.
Qed.

Lemma slots_length W v sched :
  length (encode_slots W v sched) = Z.to_nat W /\
  length (decode_slots W v sched) = Z.to_nat W.
Proof.
  unfold encode_slots, decode_slots.
  rewrite !fill_length, !length_replicate. split; reflexivity.
Qed.

(** When every thread has run, the slots are the results of the chunks in
    index order. *)
Lemma slots_schedule W v sched :
  schedule W sched ->
  encode_slots W v sched = rle <$> chunks_of W v /\
  decode_slots W v sched = expand <$> pair_chunks W v.
Proof.
  intros Hsched. unfold encode_slots, decode_slots, schedule in *.
  rewrite !(fill_schedule _ _ _ _ Hsched).
  split.
  - unfold chunks_of at 2. rewrite <- list_fmap_compose.
    apply list_fmap_ext. intros k i Hi. apply lookup_seq in Hi as [-> Hlt].
    rewrite chunks_of_lookup by exact Hlt. reflexivity.
  - unfold pair_chunks at 2. rewrite <- list_fmap_compose.
    apply list_fmap_ext. intros k i Hi. apply lookup_seq in Hi as [-> Hlt].
    rewrite pair_chunks_lookup by exact Hlt. reflexivity.
Qed.

(** The threads of [compressFile] that have run have filled their slots. *)
Lemma compress_chunks_slots sched W data :
  Forall (fun i => (i < Z.to_nat W)%nat) sched -> 1 <= W < 2 ^ 32 ->
  fits data ->
  compress_chunks sched W data = Ok ([], concat (encode_slots W data sched)).
Proof.
  intros Hin HW Hfit. unfold compress_chunks, encode_slots.
  pose proof (size_nonneg data) as Hsz. pose proof Hfit as Hfit'.
  unfold fits in Hfit'.
  rewrite (run_threads_partial _
    (fun i => rle (default [] (chunks_of W data !! i))) _ _ _ _ Hin).
  - reflexivity.
  - intros i Hi. simpl.
    rewrite chunks_of_lookup by exact Hi. simpl.
    rewrite chunk_start_boundary, chunk_end_boundary by lia.
    pose proof (boundary_bounds W (size data) HW ltac:(lia) (Z.of_nat i)).
    pose proof (boundary_bounds W (size data) HW ltac:(lia) (Z.of_nat i + 1)).
    rewrite compressRLEChunk_spec by (try assumption; lia).
    reflexivity.
Qed.

(** The threads of [decompressFile] that have run have filled their slots. *)
Lemma decompress_chunks_slots sched W raw :
  Forall (fun i => (i < Z.to_nat W)%nat) sched -> 1 <= W < 2 ^ 32 ->
  fits raw ->
  decompress_chunks sched W raw (size raw)
  = Ok ([], concat (decode_slots W raw sched)).
Proof.
  intros Hin HW Hfit. unfold decompress_chunks, decode_slots.
  pose proof (size_nonneg raw) as Hsz. pose proof Hfit as Hfit'.
  unfold fits in Hfit'. pose proof max_size_lt as Hmax.
  destruct (half_bounds (size raw)) as [Hpc Hpc2]; [lia |].
  rewrite (run_threads_partial _
    (fun i => expand (default [] (pair_chunks W raw !! i))) _ _ _ _ Hin).
  - reflexivity.
  - intros i Hi. simpl.
    rewrite pair_chunks_lookup by exact Hi. simpl.
    rewrite chunk_start_boundary, chunk_end_boundary by lia.
    pose proof (boundary_bounds W (size raw / 2) HW Hpc (Z.of_nat i)).
    pose proof (boundary_bounds W (size raw / 2) HW Hpc (Z.of_nat i + 1)).
    pose proof (boundary_mono W (size raw / 2) HW Hpc (Z.of_nat i)).
    set (s := boundary W (size raw / 2) (Z.of_nat i)) in *.
    set (e := boundary W (size raw / 2) (Z.of_nat i + 1)) in *.
    rewrite (size_t_small (s * 2)), (size_t_small (e * 2)) by lia.
    rewrite (size_t_small (e * 2 - s * 2)) by lia.
    unfold range_ctor.
    destruct (Z.leb_spec (s * 2) (e * 2)); [| lia].
    destruct (Z.leb_spec (e * 2) (size raw)); [| lia].
    rewrite andb_true_l, bind_Ok.
    assert (size (subvector raw (s * 2) (e * 2)) = e * 2 - s * 2) as Hlen
      by (apply subvector_length; lia).
    rewrite decompressRLEChunk_spec.
    + rewrite <- Hlen, subvector_all.
      replace (s * 2) with (2 * s) by lia. replace (e * 2) with (2 * e) by lia.
      reflexivity.
    + lia.
    + lia.
    + unfold fits. lia.
    + replace (e * 2 - s * 2 - 0) with ((e - s) * 2) by lia.
      apply Z.mod_mul. lia.
Qed.

(** C9 (as amended).  The worker count is the value reported by the host
    when that value is not zero, and 2 when the host reports zero; it is
    therefore at least 1, and both file operations depend on the reported
    value only through this count.  This count is the number of workers
    that both dispatchers use: each has exactly that many slots, the input
    is split into that many chunks, and thread [i] leaves in slot [i] the
    result of chunk [i]; what the two file operations write is built from
    these slots, and once every thread has run the slots are the results
    of all the chunks in index order. *)
Theorem worker_count sched hw (data : list char) :
  0 <= hw < 2 ^ 32 ->
  1 <= numThreads hw < 2 ^ 32 /\
  (hw = 0 -> numThreads hw = 2) /\
  (hw <> 0 -> numThreads hw = hw) /\
  compressFile sched hw data = compressFile sched (numThreads hw) data /\
  decompressFile sched hw data = decompressFile sched (numThreads hw) data /\
  length (chunks_of (numThreads hw) data) = Z.to_nat (numThreads hw) /\
  length (pair_chunks (numThreads hw) data) = Z.to_nat (numThreads hw) /\
  length (encode_slots (numThreads hw) data sched) = Z.to_nat (numThreads hw) /\
  length (decode_slots (numThreads hw) data sched) = Z.to_nat (numThreads hw) /\
  (fits (chr_C :: data) ->
   Forall (fun i => (i < Z.to_nat (numThreads hw))%nat) sched ->
   compress_chunks sched (numThreads hw) data
   = Ok ([], concat (encode_slots (numThreads hw) data sched)) /\
   decompress_chunks sched (numThreads hw) data (size data)
   = Ok ([], concat (decode_slots (numThreads hw) data sched)) /\
   (data <> [] ->
    compressFile sched hw data
    = Ok (Outcome [] (Some
        (if size (concat (encode_slots (numThreads hw) data sched))
            >=? size data
         then chr_U :: data
         else chr_C :: concat (encode_slots (numThreads hw) data sched))))) /\
   decompressFile sched hw (chr_C :: data)
   = Ok (Outcome [] (Some (concat (decode_slots (numThreads hw) data sched))))) /\
  (schedule (numThreads hw) sched ->
   encode_slots (numThreads hw) data sched
   = rle <$> chunks_of (numThreads hw) data /\
   decode_slots (numThreads hw) data sched
   = expand <$> pair_chunks (numThreads hw) data).
Proof.
  intros Hhw.
  assert (numThreads (numThreads hw) = numThreads hw) as Hidem.
  { unfold numThreads. destruct (Z.eqb_spec hw 0) as [-> | Hne]; [reflexivity |].
    destruct (Z.eqb_spec hw 0); [contradiction | reflexivity]. }
  pose proof (numThreads_range hw Hhw) as HW.
  split; [exact HW |].
  split; [intros ->; reflexivity |].
  split; [intros Hne; unfold numThreads; destruct (Z.eqb_spec hw 0); congruence |].
  split; [unfold compressFile; rewrite Hidem; reflexivity |].
  split; [unfold decompressFile; rewrite Hidem; reflexivity |].
  split; [unfold chunks_of; rewrite length_fmap, length_seq; reflexivity |].
  split; [unfold pair_chunks; rewrite length_fmap, length_seq; reflexivity |].
  split; [apply slots_length |]. split; [apply slots_length |].
  split; [| apply slots_schedule].
  intros Hfit Hin.
  assert (fits data) as Hfit'.
  { unfold fits in *. rewrite size_cons in Hfit. lia. }
  pose proof (compress_chunks_slots sched (numThreads hw) data Hin HW Hfit')
    as Henc.
  pose proof (decompress_chunks_slots sched (numThreads hw) data Hin HW Hfit')
    as Hdec.
  split; [exact Henc |]. split; [exact Hdec |]. split.
  - intros Hne. unfold compressFile.
    rewrite bool_decide_eq_false_2 by exact Hne. rewrite Henc. reflexivity.
  - unfold decompressFile. pose proof (size_nonneg data) as Hsz.
    pose proof max_size_lt as Hmax. unfold fits in Hfit.
    rewrite size_cons in *.
    destruct (Z.ltb_spec (1 + size data) 1); [lia |].
    unfold at_. simpl. rewrite drop_0.
    replace (1 + size data - 1) with (size data) by lia.
    rewrite size_t_small by lia. rewrite Hdec. reflexivity.
Qed.

Lemma worker_count_witness :
  (0 <= 1 < 2 ^ 32 /\ fits (chr_C :: [4; 3; 4; 3]) /\
   Forall (fun i => (i < Z.to_nat (numThreads 1))%nat) [0]%nat /\
   [4; 3; 4; 3] <> [] /\ schedule (numThreads 1) [0]%nat /\ 1 <> 0) /\
  1 <= numThreads 1 < 2 ^ 32 /\
  numThreads 1 = 1 /\
  compressFile [0]%nat 1 [4; 3; 4; 3]
  = compressFile [0]%nat (numThreads 1) [4; 3; 4; 3] /\
  length (encode_slots (numThreads 1) [4; 3; 4; 3] [0]%nat)
  = Z.to_nat (numThreads 1) /\
  length (decode_slots (numThreads 1) [4; 3; 4; 3] [0]%nat)
  = Z.to_nat (numThreads 1) /\
  compress_chunks [0]%nat (numThreads 1) [4; 3; 4; 3]
  = Ok ([], concat (encode_slots (numThreads 1) [4; 3; 4; 3] [0]%nat)) /\
  decompress_chunks [0]%nat (numThreads 1) [4; 3; 4; 3] (size [4; 3; 4; 3])
  = Ok ([], concat (decode_slots (numThreads 1) [4; 3; 4; 3] [0]%nat)) /\
  decompressFile [0]%nat 1 (chr_C :: [4; 3; 4; 3])
  = Ok (Outcome [] (Some
      (concat (decode_slots (numThreads 1) [4; 3; 4; 3] [0]%nat)))) /\
  encode_slots (numThreads 1) [4; 3; 4; 3] [0]%nat
  = rle <$> chunks_of (numThreads 1) [4; 3; 4; 3] /\
  decode_slots (numThreads 1) [4; 3; 4; 3] [0]%nat
  = expand <$> pair_chunks (numThreads 1) [4; 3; 4; 3].
Proof.
  assert (0 <= 1 < 2 ^ 32) as Hhw by lia.
  assert (fits (chr_C :: [4; 3; 4; 3])) as Hfit
    by (unfold fits; vm_compute; discriminate).
  assert (Forall (fun i => (i < Z.to_nat (numThreads 1))%nat) [0]%nat) as Hin
    by (repeat constructor).
  assert ([4; 3; 4; 3] <> []) as Hne by discriminate.
  assert (schedule (numThreads 1) [0]%nat) as Hsched
    by (unfold schedule; vm_compute; reflexivity).
  assert (1 <> 0) as Hone by discriminate.
  split; [auto 10 |].
  destruct (worker_count [0]%nat 1 [4; 3; 4; 3] Hhw)
    as (H1 & _ & H3 & H4 & _ & _ & _ & H8 & H9 & Hslots & Hall).
  destruct (Hslots Hfit Hin) as (H10 & H11 & _ & H13).
  destruct (Hall Hsched) as (H14 & H15).
  split; [exact H1 |]. split; [exact (H3 Hone) |]. split; [exact H4 |].
  split; [exact H8 |]. split; [exact H9 |]. split; [exact H10 |].
  split; [exact H11 |]. split; [exact H13 |]. split; [exact H14 | exact H15].
Defined.

(** C9, as the specification states it, fails when the host reports one
    processor: a single worker is used in both directions. *)
Lemma worker_count_counterexample :
  numThreads 1 = 1 /\ ~ 2 <= numThreads 1 /\
  compressFile [0]%nat 1 [4; 4; 4; 4; 4; 4] = Ok (Outcome [] (Some [chr_C; 4; 6])) /\
  compressFile [0; 1]%nat 2 [4; 4; 4; 4; 4; 4]
  = Ok (Outcome [] (Some [chr_C; 4; 3; 4; 3])).
Proof.
  split; [reflexivity |]. split; [vm_compute; intros H; apply H; reflexivity |].
  split; vm_compute; reflexivity.
Qed.

(** ** Counts read by the decoder *)

Lemma to_uchar_nonneg n : 0 <= to_uchar n < 256.
Proof. unfold to_uchar. apply Z.mod_pos_bound. lia. Qed.





(** ** Payloads of odd length *)

(** The last byte of an odd payload is dropped without any diagnostic. *)
Lemma decompressFile_odd_payload sched hw (raw : list char) (x : char) :
  schedule (numThreads hw) sched -> 0 <= hw < 2 ^ 32 ->
  fits (chr_C :: raw ++ [x]) -> size raw mod 2 = 0 ->
  decompressFile sched hw (chr_C :: raw ++ [x])
  = Ok (Outcome [] (Some (expand raw))).
Proof.
  intros Hsched Hhw Hfit Hev.
  rewrite decompressFile_C_spec by assumption.
  rewrite expand_app by exact Hev. simpl. rewrite app_nil_r. reflexivity.
Qed.

(** C2.  The container ['C'], ['A'], 3, ['B'] has a payload of three bytes.
    The decoder reports nothing and writes the three bytes [AAA]: the last
    byte of the payload is dropped.  The chunk decoder itself, given the
    odd range of these three bytes, prints its diagnostic and returns an
    empty vector. *)
Theorem odd_payload_truncated :
  decompressFile [0; 1]%nat 0 [chr_C; 65; 3; 66]
  = Ok (Outcome [] (Some [65; 65; 65])) /\
  decompressFile [0; 1]%nat 0 [chr_C; 65; 3]
  = Ok (Outcome [] (Some [65; 65; 65])) /\
  decompressRLEChunk [65; 3; 66] 0 3 = Ok ([InvalidChunkSize], []).
Proof. repeat split; vm_compute; reflexivity. Qed.


(** * Further properties of the codec *)

(** ** Decoding does not depend on the workers *)

(** X1.  For a container with header ['C'] the bytes written by the decoder
    are the expansion of the pairs of the payload, whatever the number of
    processors reported and whatever the order in which the threads run:
    two decodings of the same container write the same bytes. *)
Theorem decode_worker_independent sched1 sched2 hw1 hw2 (raw : list char) :
  fits (chr_C :: raw) ->
  0 <= hw1 < 2 ^ 32 -> 0 <= hw2 < 2 ^ 32 ->
  schedule (numThreads hw1) sched1 -> schedule (numThreads hw2) sched2 ->
  decompressFile sched1 hw1 (chr_C :: raw) = Ok (Outcome [] (Some (expand raw))) /\
  decompressFile sched2 hw2 (chr_C :: raw) = decompressFile sched1 hw1 (chr_C :: raw).
Proof.
  intros Hfit Hhw1 Hhw2 Hs1 Hs2.
  rewrite !decompressFile_C_spec by assumption. split; reflexivity.
Qed.

Lemma decode_worker_independent_witness :
  (fits (chr_C :: [65; 2; 66; 1; 67; 3; 9]) /\
   0 <= 1 < 2 ^ 32 /\ 0 <= 3 < 2 ^ 32 /\
   schedule (numThreads 1) [0]%nat /\ schedule (numThreads 3) [1; 0; 2]%nat) /\
  decompressFile [0]%nat 1 (chr_C :: [65; 2; 66; 1; 67; 3; 9])
  = Ok (Outcome [] (Some (expand [65; 2; 66; 1; 67; 3; 9]))) /\
  decompressFile [1; 0; 2]%nat 3 (chr_C :: [65; 2; 66; 1; 67; 3; 9])
  = decompressFile [0]%nat 1 (chr_C :: [65; 2; 66; 1; 67; 3; 9]).
Proof.
  assert (fits (chr_C :: [65; 2; 66; 1; 67; 3; 9])) as H1
    by (unfold fits; vm_compute; discriminate).
  assert (0 <= 1 < 2 ^ 32) as H2 by lia.
  assert (0 <= 3 < 2 ^ 32) as H3 by lia.
  assert (schedule (numThreads 1) [0]%nat) as H4
    by (unfold schedule; vm_compute; reflexivity).
  assert (schedule (numThreads 3) [1; 0; 2]%nat) as H5
    by (unfold schedule; vm_compute; apply perm_swap).
  split; [auto 10 |].
  apply (decode_worker_independent [0]%nat [1; 0; 2]%nat 1 3
           [65; 2; 66; 1; 67; 3; 9] H1 H2 H3 H4 H5).
Defined.

(** ** The decoder on arbitrary files *)

(** X2.  On every file, well formed or not, the decoder returns: it never
    reads past the end of a vector, and the only diagnostics it can print
    are the one for an empty file and the one for an unknown header.  In
    particular the chunk decoder is never given an odd range, so its
    diagnostic is never printed. *)
Theorem decompressFile_safe sched hw (data : list char) :
  fits data -> 0 <= hw < 2 ^ 32 -> schedule (numThreads hw) sched ->
  exists log out,
    decompressFile sched hw data = Ok (Outcome log out) /\
    (InvalidChunkSize ∉ log) /\
    (out = None <-> data = [] \/ exists h rest,
                      data = h :: rest /\ h <> chr_C /\ h <> chr_U).
Proof.
  intros Hfit Hhw Hsched. destruct data as [| h rest].
  - exists [EmptyContainer], None. split; [reflexivity |].
    split; [| split; auto].
    intros Hin. apply list_elem_of_singleton in Hin. discriminate.
  - destruct (Z.eq_dec h chr_C) as [-> | HC].
    { exists [], (Some (expand rest)).
      split; [apply decompressFile_C_spec; assumption |].
      split; [apply not_elem_of_nil |].
      split; [discriminate |].
      intros [Hnil | (h & r & Heq & Hh & _)]; [discriminate |].
      inversion Heq; subst. contradiction. }
    destruct (Z.eq_dec h chr_U) as [-> | HU].
    { exists [], (Some rest).
      split; [apply decompressFile_U |].
      split; [apply not_elem_of_nil |].
      split; [discriminate |].
      intros [Hnil | (h & r & Heq & _ & Hh)]; [discriminate |].
      inversion Heq; subst. contradiction. }
    exists [UnknownHeader], None. split.
    + unfold decompressFile. rewrite size_cons.
      pose proof (size_nonneg rest).
      destruct (Z.ltb_spec (1 + size rest) 1); [lia |].
      unfold at_. simpl.
      destruct (Z.eqb_spec h chr_C); [contradiction |].
      destruct (Z.eqb_spec h chr_U); [contradiction |]. reflexivity.
    + split.
      * intros Hin. apply list_elem_of_singleton in Hin. discriminate.
      * split; [| reflexivity]. intros _. right. exists h, rest. auto.
Qed.

Lemma decompressFile_safe_witness :
  (fits [chr_C; 1; 2; 3; 4; 5] /\ 0 <= 4 < 2 ^ 32 /\
   schedule (numThreads 4) [3; 2; 1; 0]%nat) /\
  exists log out,
    decompressFile [3; 2; 1; 0]%nat 4 [chr_C; 1; 2; 3; 4; 5]
    = Ok (Outcome log out) /\
    (InvalidChunkSize ∉ log) /\
    (out = None <-> [chr_C; 1; 2; 3; 4; 5] = [] \/ exists h rest,
                      [chr_C; 1; 2; 3; 4; 5] = h :: rest /\
                      h <> chr_C /\ h <> chr_U).
Proof.
  assert (fits [chr_C; 1; 2; 3; 4; 5]) as H1
    by (unfold fits; vm_compute; discriminate).
  assert (0 <= 4 < 2 ^ 32) as H2 by lia.
  assert (schedule (numThreads 4) [3; 2; 1; 0]%nat) as H3.
  { unfold schedule. vm_compute.
    change [3; 2; 1; 0]%nat with (reverse [0; 1; 2; 3]%nat).
    apply reverse_Permutation. }
  split; [auto |].
  apply (decompressFile_safe [3; 2; 1; 0]%nat 4 [chr_C; 1; 2; 3; 4; 5] H1 H2 H3).
Defined.

(** ** The shape of what the encoder writes *)

Lemma pairs_of_app a b :
  size a mod 2 = 0 -> pairs_of (a ++ b) = pairs_of a ++ pairs_of b.
Proof.
  induction a as [| x | x y a IH] using list_pair_ind; intros Hev.
  - reflexivity.
  - discriminate Hev.
  - apply even_size_cons2 in Hev. simpl. rewrite IH by exact Hev. reflexivity.
Qed.

Lemma encoded_even W data : size (encoded W data) mod 2 = 0.
Proof.
  unfold encoded. induction (chunks_of W data) as [| c chunks IH].
  - reflexivity.
  - rewrite fmap_cons. cbn [concat].
    apply size_app_even; [apply rle_even | exact IH].
Qed.

Lemma encoded_counts W data : Forall count_ok (pairs_of (encoded W data)).
Proof.
  unfold encoded. induction (chunks_of W data) as [| c chunks IH].
  - constructor.
  - rewrite fmap_cons. cbn [concat].
    rewrite pairs_of_app by apply rle_even.
    apply Forall_app. split; [apply pairs_of_rle | exact IH].
Qed.

(** X3.  What the encoder writes for a non-empty buffer [B] is never more
    than one byte longer than [B].  It is either ['U'] followed by [B], or
    ['C'] followed by a payload that is strictly shorter than [B], has an
    even number of bytes, and in which every count is between 1 and 255. *)
Theorem container_shape sched hw (B : list char) :
  B <> [] -> fits B -> 0 <= hw < 2 ^ 32 -> schedule (numThreads hw) sched ->
  exists h payload,
    compressFile sched hw B = Ok (Outcome [] (Some (h :: payload))) /\
    size (h :: payload) <= size B + 1 /\
    (h = chr_U /\ payload = B \/
     h = chr_C /\ size payload < size B /\ size payload mod 2 = 0 /\
     Forall count_ok (pairs_of payload)).
Proof.
  intros Hne Hfit Hhw Hsched.
  rewrite compressFile_spec by assumption. rewrite Z.geb_leb.
  destruct (Z.leb_spec (size B) (size (encoded (numThreads hw) B)))
    as [Hle | Hlt].
  - exists chr_U, B. split; [reflexivity |].
    split; [rewrite size_cons; lia | left; auto].
  - exists chr_C, (encoded (numThreads hw) B). split; [reflexivity |].
    split; [rewrite size_cons; lia |]. right.
    split; [reflexivity |]. split; [exact Hlt |].
    split; [apply encoded_even | apply encoded_counts].
Qed.

Lemma container_shape_witness :
  ([3; 3; 3; 3; 3; 3; 3; 4] <> [] /\ fits [3; 3; 3; 3; 3; 3; 3; 4] /\
   0 <= 2 < 2 ^ 32 /\ schedule (numThreads 2) [1; 0]%nat) /\
  exists h payload,
    compressFile [1; 0]%nat 2 [3; 3; 3; 3; 3; 3; 3; 4]
    = Ok (Outcome [] (Some (h :: payload))) /\
    size (h :: payload) <= size [3; 3; 3; 3; 3; 3; 3; 4] + 1 /\
    (h = chr_U /\ payload = [3; 3; 3; 3; 3; 3; 3; 4] \/
     h = chr_C /\ size payload < size [3; 3; 3; 3; 3; 3; 3; 4] /\
     size payload mod 2 = 0 /\ Forall count_ok (pairs_of payload)).
Proof.
  assert ([3; 3; 3; 3; 3; 3; 3; 4] <> []) as H1 by discriminate.
  assert (fits [3; 3; 3; 3; 3; 3; 3; 4]) as H2
    by (unfold fits; vm_compute; discriminate).
  assert (0 <= 2 < 2 ^ 32) as H3 by lia.
  assert (schedule (numThreads 2) [1; 0]%nat) as H4
    by (unfold schedule; vm_compute; apply perm_swap).
  split; [auto |].
  apply (container_shape [1; 0]%nat 2 [3; 3; 3; 3; 3; 3; 3; 4] H1 H2 H3 H4).
Defined.

(** ** Runs are as long as they can be *)

Lemma pairs_of_rle_run_head c n l :
  exists k rest, pairs_of (rle_run c n l) = (c, k) :: rest.
Proof.
  revert n. induction l as [| d l IH]; intros n.
  - simpl. eauto.
  - cbn [rle_run]. destruct ((d =? c) && (n <? 255)).
    + apply IH.
    + simpl. eauto.
Qed.

Lemma maximal_runs_rle_run c n l :
  1 <= n <= 255 -> maximal_runs (pairs_of (rle_run c n l)).
Proof.
  revert c n. induction l as [| d l IH]; intros c n Hn.
  - simpl. exact I.
  - cbn [rle_run]. destruct ((d =? c) && (n <? 255)) eqn:Hcond.
    + apply andb_true_iff in Hcond as [_ Hlt]. apply Z.ltb_lt in Hlt.
      apply IH. lia.
    + cbn [pairs_of].
      pose proof (IH d 1 ltac:(lia)) as Hrest.
      destruct (pairs_of_rle_run_head d 1 l) as (k & rest & Heq).
      rewrite Heq in *. cbn [maximal_runs]. split; [| exact Hrest].
      cbn [fst snd]. rewrite to_uchar_to_char by lia.
      apply andb_false_iff in Hcond as [Hd | Hlt].
      * left. apply Z.eqb_neq in Hd. congruence.
      * right. apply Z.ltb_ge in Hlt. lia.
Qed.

Lemma rle_run_covers c n l :
  1 <= n <= 255 -> 2 * (n + size l) <= 255 * size (rle_run c n l).
Proof.
  revert c n. induction l as [| d l IH]; intros c n Hn.
  - unfold size. simpl. lia.
  - cbn [rle_run]. destruct ((d =? c) && (n <? 255)) eqn:Hcond.
    + apply andb_true_iff in Hcond as [_ Hlt]. apply Z.ltb_lt in Hlt.
      specialize (IH c (n + 1) ltac:(lia)). rewrite size_cons. lia.
    + specialize (IH d 1 ltac:(lia)). rewrite !size_cons. lia.
Qed.

(** X4.  On a range inside the buffer the pairs returned by the chunk
    encoder are runs that are as long as they can be: two consecutive
    pairs carry different bytes unless the first one has the count 255.
    The code has at most two bytes per byte of the range, and at least two
    bytes per 255 bytes of the range. *)
Theorem runs_maximal (data : list char) (start end_ : Z) :
  0 <= start <= end_ -> end_ <= size data -> fits data ->
  exists out,
    compressRLEChunk data start end_ = Ok out /\
    maximal_runs (pairs_of out) /\
    size out <= 2 * (end_ - start) /\
    2 * (end_ - start) <= 255 * size out.
Proof.
  intros Hs He Hfit. exists (rle (subvector data start end_)).
  split; [apply compressRLEChunk_spec; try assumption; lia |].
  pose proof (subvector_length data start end_ Hs He) as Hlen.
  pose proof (rle_size (subvector data start end_)) as Hup.
  destruct (subvector data start end_) as [| c l].
  - split; [exact I |]. unfold size in *. simpl in *. lia.
  - split; [apply maximal_runs_rle_run; lia |].
    split; [lia |].
    pose proof (rle_run_covers c 1 l ltac:(lia)) as Hlow.
    rewrite size_cons in Hlen. simpl. lia.
Qed.

Lemma runs_maximal_witness :
  (0 <= 1 <= 7 /\ 7 <= size [1; 2; 2; 2; 3; 3; 2; 9] /\
   fits [1; 2; 2; 2; 3; 3; 2; 9]) /\
  exists out,
    compressRLEChunk [1; 2; 2; 2; 3; 3; 2; 9] 1 7 = Ok out /\
    maximal_runs (pairs_of out) /\
    size out <= 2 * (7 - 1) /\
    2 * (7 - 1) <= 255 * size out.
Proof.
  assert (0 <= 1 <= 7) as H1 by lia.
  assert (7 <= size [1; 2; 2; 2; 3; 3; 2; 9]) as H2 by (vm_compute; discriminate).
  assert (fits [1; 2; 2; 2; 3; 3; 2; 9]) as H3
    by (unfold fits; vm_compute; discriminate).
  split; [auto |].
  apply (runs_maximal [1; 2; 2; 2; 3; 3; 2; 9] 1 7 H1 H2 H3).
Defined.

(** ** How much the decoder can write *)

Lemma expand_size v : 2 * size (expand v) <= 255 * size v.
Proof.
  induction v as [| x | c n v IH] using list_pair_ind.
  - reflexivity.
  - unfold size. simpl. lia.
  - cbn [expand]. rewrite size_app, !size_cons.
    unfold size at 1. rewrite length_replicate.
    pose proof (to_uchar_nonneg n). lia.
Qed.

(** X5.  A container with header ['C'] is decoded to at most 255 bytes for
    each pair of its payload: twice the number of bytes written is at most
    255 times the number of payload bytes. *)
Theorem decoded_size_bound sched hw (raw : list char) :
  fits (chr_C :: raw) -> 0 <= hw < 2 ^ 32 -> schedule (numThreads hw) sched ->
  exists out,
    decompressFile sched hw (chr_C :: raw) = Ok (Outcome [] (Some out)) /\
    2 * size out <= 255 * size raw.
Proof.
  intros Hfit Hhw Hsched. exists (expand raw).
  split; [apply decompressFile_C_spec; assumption | apply expand_size].
Qed.

Lemma decoded_size_bound_witness :
  (fits (chr_C :: [65; 255; 66; 255]) /\ 0 <= 2 < 2 ^ 32 /\
   schedule (numThreads 2) [0; 1]%nat) /\
  exists out,
    decompressFile [0; 1]%nat 2 (chr_C :: [65; 255; 66; 255])
    = Ok (Outcome [] (Some out)) /\
    2 * size out <= 255 * size [65; 255; 66; 255].
Proof.
  assert (fits (chr_C :: [65; 255; 66; 255])) as H1
    by (unfold fits; vm_compute; discriminate).
  assert (0 <= 2 < 2 ^ 32) as H2 by lia.
  assert (schedule (numThreads 2) [0; 1]%nat) as H3
    by (unfold schedule; vm_compute; reflexivity).
  split; [auto |].
  apply (decoded_size_bound [0; 1]%nat 2 [65; 255; 66; 255] H1 H2 H3).
Defined.

(** ** Ranges that leave the vector *)

Lemma run_length_read fuel data i e c count k :
  0 <= i -> 1 <= count <= 255 -> i + count <= size data -> fits data ->
  run_length fuel data i e c count = Ok k -> i + k <= size data.
Proof.
  intros Hi. revert count.
  induction fuel as [| fuel IH]; intros count Hc Hin Hfit;
    pose proof Hfit as Hfit'; unfold fits, max_size in Hfit';
    rewrite run_length_unfold, (size_t_small (i + count)) by lia;
    (destruct (i + count <? e); [| intros [= <-]; exact Hin]);
    (case_at data (i + count) d Hat; [| discriminate]);
    rewrite bind_Ok;
    (destruct ((d =? c) && (count <? 255)) eqn:Hcond;
       [| intros [= <-]; exact Hin]).
  - discriminate.
  - apply andb_true_iff in Hcond as [_ Hlt]. apply Z.ltb_lt in Hlt.
    apply at_Ok in Hat; [| lia].
    rewrite (size_t_small (count + 1)) by lia.
    apply IH; [lia | lia | exact Hfit].
Qed.

Lemma compress_loop_leaves fuel data i e acc :
  fits data -> 0 <= i < e -> size data < e ->
  (Z.to_nat (size data - i) < fuel)%nat ->
  compress_loop fuel data i e acc = OutOfBounds.
Proof.
  intros Hfit. pose proof Hfit as Hfit'. unfold fits, max_size in Hfit'.
  revert i acc. induction fuel as [| fuel IH]; intros i acc Hi He Hfuel; [lia |].
  rewrite compress_loop_S.
  destruct (Z.ltb_spec i e); [| lia].
  case_at data i c Hat; [| reflexivity].
  apply at_Ok in Hat; [| lia]. rewrite bind_Ok.
  pose proof (run_length_fuel 255 data i e c 1 ltac:(lia) ltac:(lia)) as Hrun.
  destruct (run_length 255 data i e c 1) as [k | |] eqn:Hk;
    [| reflexivity | contradiction].
  cbv beta iota in Hrun.
  pose proof (run_length_read 255 data i e c 1 k ltac:(lia) ltac:(lia)
                ltac:(lia) Hfit Hk) as Hread.
  rewrite bind_Ok, (size_t_small (i + k)) by lia.
  apply IH; lia.
Qed.

Lemma decompress_loop_leaves fuel data i e acc :
  fits data -> 0 <= i < e -> size data < e -> e < 2 ^ 64 ->
  (e - i) mod 2 = 0 ->
  (Z.to_nat (size data - i) < fuel)%nat ->
  decompress_loop fuel data i e acc = OutOfBounds.
Proof.
  intros Hfit. pose proof Hfit as Hfit'. unfold fits, max_size in Hfit'.
  revert i acc.
  induction fuel as [| fuel IH]; intros i acc Hi He Hmax Hev Hfuel; [lia |].
  rewrite decompress_loop_S.
  destruct (Z.ltb_spec i e); [| lia].
  case_at data i c Hat; [| reflexivity].
  apply at_Ok in Hat; [| lia]. rewrite bind_Ok.
  rewrite (size_t_small (i + 1)) by lia.
  case_at data (i + 1) n Hat1; [| reflexivity].
  apply at_Ok in Hat1; [| lia]. rewrite bind_Ok.
  rewrite (size_t_small (i + 2)) by lia.
  apply IH; try lia.
  replace (e - (i + 2)) with (e - i + (-1) * 2) by lia.
  rewrite Z.mod_add by lia. exact Hev.
Qed.

(** X6.  The chunk functions stay inside the vector exactly when the range
    is empty or ends inside it.  With [start < end] and [end] beyond the
    size of the vector the encoder reads past the end of the vector, and so
    does the decoder on an even range; with [end] inside the vector both
    return. *)
Theorem chunk_bounds (data : list char) (start end_ : Z) :
  fits data -> 0 <= start -> end_ < 2 ^ 64 ->
  (compressRLEChunk data start end_ = OutOfBounds
   <-> start < end_ /\ size data < end_) /\
  ((end_ - start) mod 2 = 0 ->
   (decompressRLEChunk data start end_ = OutOfBounds
    <-> start < end_ /\ size data < end_)).
Proof.
  intros Hfit Hs Hmax. pose proof (size_nonneg data) as Hsz.
  pose proof Hfit as Hfit'. unfold fits, max_size in Hfit'.
  split; [| intros Hev]; split.
  - intros Hoob.
    destruct (Z.lt_ge_cases start end_) as [Hlt | Hge].
    + split; [exact Hlt |].
      destruct (Z.lt_ge_cases (size data) end_) as [Hout | Hin]; [exact Hout |].
      rewrite compressRLEChunk_spec in Hoob by (try assumption; lia).
      discriminate.
    + unfold compressRLEChunk in Hoob. rewrite compress_loop_S in Hoob.
      destruct (Z.ltb_spec start end_); [lia | discriminate].
  - intros [Hlt Hout]. unfold compressRLEChunk.
    apply compress_loop_leaves; try assumption; try lia.
    unfold size. lia.
  - intros Hoob.
    destruct (Z.lt_ge_cases start end_) as [Hlt | Hge].
    + split; [exact Hlt |].
      destruct (Z.lt_ge_cases (size data) end_) as [Hout | Hin]; [exact Hout |].
      rewrite decompressRLEChunk_spec in Hoob by (try assumption; lia).
      discriminate.
    + unfold decompressRLEChunk in Hoob.
      destruct (negb (size_t (end_ - start) mod 2 =? 0)); [discriminate |].
      rewrite decompress_loop_S in Hoob.
      destruct (Z.ltb_spec start end_); [lia | discriminate].
  - intros [Hlt Hout]. unfold decompressRLEChunk.
    rewrite (size_t_small (end_ - start)) by lia.
    rewrite Hev. cbn [Z.eqb negb].
    rewrite decompress_loop_leaves; try assumption; try lia.
    + reflexivity.
    + unfold size. lia.
Qed.

Lemma chunk_bounds_witness :
  (fits [7; 7; 8] /\ 0 <= 1 /\ 5 < 2 ^ 64) /\
  (compressRLEChunk [7; 7; 8] 1 5 = OutOfBounds <-> 1 < 5 /\ size [7; 7; 8] < 5) /\
  ((5 - 1) mod 2 = 0 ->
   (decompressRLEChunk [7; 7; 8] 1 5 = OutOfBounds
    <-> 1 < 5 /\ size [7; 7; 8] < 5)).
Proof.
  assert (fits [7; 7; 8]) as H1 by (unfold fits; vm_compute; discriminate).
  assert (0 <= 1) as H2 by lia.
  assert (5 < 2 ^ 64) as H3 by lia.
  split; [auto |].
  apply (chunk_bounds [7; 7; 8] 1 5 H1 H2 H3).
Defined.

(** ** The cost of the chunk boundaries *)

Lemma rle_run_tail c n b :
  1 <= n <= 255 -> size (rle b) <= size (rle_run c n b).
Proof.
  intros Hn. destruct b as [| d b].
  - pose proof (rle_run_size c n []). change (size (rle [])) with 0. lia.
  - cbn [rle_run rle]. destruct ((d =? c) && (n <? 255)) eqn:Hcond.
    + apply andb_true_iff in Hcond as [Hd Hlt].
      apply Z.eqb_eq in Hd. apply Z.ltb_lt in Hlt. subst d.
      pose proof (rle_run_start c 1 (n + 1) b ltac:(lia) ltac:(lia)). lia.
    + rewrite !size_cons. lia.
Qed.

Lemma rle_run_split c n a b :
  1 <= n <= 255 ->
  size (rle_run c n a) + size (rle b) <= size (rle_run c n (a ++ b)) + 2.
Proof.
  revert c n. induction a as [| d a IH]; intros c n Hn.
  - pose proof (rle_run_tail c n b Hn).
    change (size (rle_run c n [])) with 2. simpl. lia.
  - cbn [app rle_run]. destruct ((d =? c) && (n <? 255)) eqn:Hcond.
    + apply andb_true_iff in Hcond as [_ Hlt]. apply Z.ltb_lt in Hlt.
      apply IH. lia.
    + rewrite !size_cons. specialize (IH d 1 ltac:(lia)). lia.
Qed.

Lemma rle_split a b :
  size (rle a) + size (rle b) <= size (rle (a ++ b)) + 2.
Proof.
  destruct a as [| c a].
  - change (size (rle [])) with 0. simpl. lia.
  - apply rle_run_split. lia.
Qed.

Lemma rle_concat_upper (chunks : list (list char)) :
  size (concat (rle <$> chunks))
  <= size (rle (concat chunks)) + 2 * Z.max 0 (Z.of_nat (length chunks) - 1).
Proof.
  induction chunks as [| c chunks IH].
  - reflexivity.
  - rewrite fmap_cons. cbn [concat]. rewrite size_app.
    destruct chunks as [| c' chunks].
    + simpl. rewrite app_nil_r. change (size []) with 0. lia.
    + pose proof (rle_split c (concat (c' :: chunks))).
      cbn [length] in *. lia.
Qed.

Lemma chunks_of_length W data : length (chunks_of W data) = Z.to_nat W.
Proof. unfold chunks_of. rewrite length_fmap, length_seq. reflexivity. Qed.

(** X7.  Splitting a buffer among [W] workers costs at most one pair for
    each of the [W - 1] chunk boundaries and never gains anything: the
    merged output of the threads is at least as long as the code of the
    buffer encoded as one chunk, and at most [2 * (W - 1)] bytes longer. *)
Theorem boundary_cost sched W (data : list char) :
  schedule W sched -> 1 <= W < 2 ^ 32 -> fits data ->
  exists single chunked,
    compressRLEChunk data 0 (size data) = Ok single /\
    compress_chunks sched W data = Ok ([], chunked) /\
    size single <= size chunked <= size single + 2 * (W - 1).
Proof.
  intros Hsched HW Hfit.
  exists (rle data), (encoded W data).
  split; [apply compressRLEChunk_whole; exact Hfit |].
  split; [apply compress_chunks_spec; assumption |].
  split; [apply encoded_size; assumption |].
  unfold encoded.
  pose proof (rle_concat_upper (chunks_of W data)) as Hup.
  rewrite concat_chunks_of, chunks_of_length in Hup by assumption. lia.
Qed.

Lemma boundary_cost_witness :
  (schedule 3 [0; 2; 1]%nat /\ 1 <= 3 < 2 ^ 32 /\ fits (replicate 9 5)) /\
  exists single chunked,
    compressRLEChunk (replicate 9 5) 0 (size (replicate 9 5)) = Ok single /\
    compress_chunks [0; 2; 1]%nat 3 (replicate 9 5) = Ok ([], chunked) /\
    size single <= size chunked <= size single + 2 * (3 - 1).
Proof.
  assert (schedule 3 [0; 2; 1]%nat) as H1
    by (unfold schedule; vm_compute; apply perm_skip, perm_swap).
  assert (1 <= 3 < 2 ^ 32) as H2 by lia.
  assert (fits (replicate 9 5)) as H3 by (unfold fits; vm_compute; discriminate).
  split; [auto |].
  apply (boundary_cost [0; 2; 1]%nat 3 (replicate 9 5) H1 H2 H3).
Defined.

(** ** More workers than bytes *)

Lemma concat_all_nil {A : Type} (ls : list (list A)) :
  Forall (fun l => l = []) ls -> concat ls = [].
Proof.
  induction 1 as [| l ls Hl _ IH]; [reflexivity |].
  simpl. rewrite Hl, IH. reflexivity.
Qed.

Lemma encoded_few_bytes W data :
  1 <= W < 2 ^ 32 -> fits data -> W = 1 \/ size data < W ->
  encoded W data = rle data.
Proof.
  intros HW Hfit Hfew. pose proof (size_nonneg data) as Hsz.
  unfold encoded, chunks_of.
  replace (Z.to_nat W) with (S (Z.to_nat (W - 1))) by lia.
  rewrite seq_S, !fmap_app, concat_app. simpl.
  rewrite Z2Nat.id by lia. replace (W - 1 + 1) with W by lia.
  rewrite boundary_last, app_nil_r.
  assert (boundary W (size data) (W - 1) = 0) as ->.
  { unfold boundary. destruct (Z.ltb_spec (W - 1) W); [| lia].
    destruct Hfew as [-> | Hlt]; [reflexivity |].
    rewrite Z.div_small by lia. lia. }
  rewrite subvector_all.
  rewrite concat_all_nil; [reflexivity |].
  apply Forall_fmap, Forall_fmap, Forall_forall. intros i Hi. simpl.
  apply elem_of_seq in Hi.
  destruct Hfew as [-> | Hlt]; [simpl in Hi; lia |].
  unfold boundary.
  destruct (Z.ltb_spec (Z.of_nat i) W); [| lia].
  destruct (Z.ltb_spec (Z.of_nat i + 1) W); [| lia].
  rewrite Z.div_small by lia.
  rewrite subvector_empty by lia. reflexivity.
Qed.

(** X8.  With a single worker, or with more workers than the buffer has
    bytes, every chunk but the last is empty and the last one is the whole
    buffer: the threads produce exactly the code of the buffer encoded as
    one chunk. *)
Theorem few_bytes_single_chunk sched W (data : list char) :
  schedule W sched -> 1 <= W < 2 ^ 32 -> fits data ->
  W = 1 \/ size data < W ->
  exists single,
    compressRLEChunk data 0 (size data) = Ok single /\
    compress_chunks sched W data = Ok ([], single).
Proof.
  intros Hsched HW Hfit Hfew. exists (rle data).
  split; [apply compressRLEChunk_whole; exact Hfit |].
  rewrite compress_chunks_spec by assumption.
  fold (encoded W data). rewrite encoded_few_bytes by assumption. reflexivity.
Qed.

Lemma few_bytes_single_chunk_witness :
  (schedule 4 [3; 1; 0; 2]%nat /\ 1 <= 4 < 2 ^ 32 /\ fits [6; 6; 6] /\
   (4 = 1 \/ size [6; 6; 6] < 4)) /\
  exists single,
    compressRLEChunk [6; 6; 6] 0 (size [6; 6; 6]) = Ok single /\
    compress_chunks [3; 1; 0; 2]%nat 4 [6; 6; 6] = Ok ([], single).
Proof.
  assert (schedule 4 [3; 1; 0; 2]%nat) as H1.
  { unfold schedule. vm_compute.
    apply perm_trans with [1; 3; 0; 2]%nat; [apply perm_swap |].
    apply perm_trans with [1; 0; 3; 2]%nat; [apply perm_skip, perm_swap |].
    apply perm_trans with [0; 1; 3; 2]%nat; [apply perm_swap |].
    do 2 apply perm_skip. apply perm_swap. }
  assert (1 <= 4 < 2 ^ 32) as H2 by lia.
  assert (fits [6; 6; 6]) as H3 by (unfold fits; vm_compute; discriminate).
  assert (4 = 1 \/ size [6; 6; 6] < 4) as H4 by (right; vm_compute; reflexivity).
  split; [auto |].
  apply (few_bytes_single_chunk [3; 1; 0; 2]%nat 4 [6; 6; 6] H1 H2 H3 H4).
Defined.

(** * The console, the files and the menu *)

Example main_session :
  main (fun _ => [0; 1]%nat) 2 10
    (World ["1"; "a.txt"; "aaaaaaaa"; ""; "2"; "a.txt"; "a.rle";
            "3"; "a.rle"; "b.txt"; "4"; "left"]%string ∅ ∅ [])
  = Ok (World ["left"%string]
          (<["b.txt"%string := bytes "aaaaaaaa" ++ [10]]>
            (<["a.rle"%string := [chr_C; 97; 4; 97; 4; 10; 1]]>
              (<["a.txt"%string := bytes "aaaaaaaa" ++ [10]]> ∅)))
          ∅ []).
Proof. vm_compute. reflexivity. Qed.

(** ** createFile *)

Lemma read_lines_text lines out :
  Forall (fun l => l <> EmptyString) lines ->
  (forall rest,
     read_lines (lines ++ EmptyString :: rest) out
     = (out ++ concat ((fun l => bytes l ++ [10]) <$> lines), rest)) /\
  read_lines lines out
  = (out ++ concat ((fun l => bytes l ++ [10]) <$> lines), []).
Proof.
  intros Hlines. revert out.
  induction Hlines as [| l lines Hl _ IH]; intros out.
  - simpl. rewrite app_nil_r. split; reflexivity.
  - apply String.eqb_neq in Hl.
    destruct (IH (out ++ bytes l ++ [10])) as [IH1 IH2].
    rewrite fmap_cons. cbn [concat app read_lines]. rewrite Hl.
    rewrite IH2. split; [intros rest; rewrite IH1 |];
      rewrite <- !app_assoc; reflexivity.
Qed.

(** X9.  [createFile] stores under the name read first the lines that
    follow, each ended by a newline, up to the first empty line or to the
    end of the input; a file that had this name is replaced, the other
    files and the console are left alone, and the input after the empty
    line is left to be read.  When the file cannot be opened nothing but
    the name is read and only the diagnostic is printed. *)
Theorem createFile_text (w : world) (name : string) (lines rest : list string) :
  Forall (fun l => l <> EmptyString) lines ->
  (name ∉ locked w -> stdin w = name :: lines ++ EmptyString :: rest ->
   createFile w
   = World rest
       (<[name := concat ((fun l => bytes l ++ [10]) <$> lines)]> (files w))
       (locked w) (console w)) /\
  (name ∉ locked w -> stdin w = name :: lines ->
   createFile w
   = World []
       (<[name := concat ((fun l => bytes l ++ [10]) <$> lines)]> (files w))
       (locked w) (console w)) /\
  (name ∈ locked w -> stdin w = name :: rest ->
   createFile w
   = World rest (files w) (locked w) (console w ++ [CannotCreate])).
Proof.
  intros Hlines. destruct w as [input fs lk con]. simpl.
  destruct (read_lines_text lines [] Hlines) as [Hcut Hend].
  split; [| split]; intros Hlk ->; unfold createFile, getline; simpl.
  - rewrite bool_decide_eq_false_2 by exact Hlk. rewrite Hcut. reflexivity.
  - rewrite bool_decide_eq_false_2 by exact Hlk. rewrite Hend. reflexivity.
  - rewrite bool_decide_eq_true_2 by exact Hlk. reflexivity.
Qed.

Lemma createFile_text_witness :
  Forall (fun l => l <> EmptyString) ["ab"; "c"]%string /\
  createFile (World ["f"; "ab"; "c"; ""; "2"]%string ∅ ∅ [])
  = World ["2"%string]
      (<["f"%string :=
           concat ((fun l => bytes l ++ [10]) <$> ["ab"; "c"]%string)]> ∅)
      ∅ [].
Proof.
  assert (Forall (fun l => l <> EmptyString) ["ab"; "c"]%string) as H1
    by (repeat constructor; discriminate).
  split; [exact H1 |].
  destruct (createFile_text (World ["f"; "ab"; "c"; ""; "2"]%string ∅ ∅ [])
              "f" ["ab"; "c"]%string ["2"%string] H1) as (Hcut & _ & _).
  apply Hcut; [apply not_elem_of_empty | reflexivity].
Defined.

(** ** The two file operations on the files *)

Lemma compressFile_io_written sched hw w inF outF rest data log c :
  stdin w = inF :: outF :: rest -> files w !! inF = Some data ->
  compressFile sched hw data = Ok (Outcome log (Some c)) ->
  outF ∉ locked w ->
  compressFile_io sched hw w
  = Ok (World rest (<[outF := c]> (files w)) (locked w)
          (console w ++ (Report <$> log))).
Proof.
  destruct w as [input fs lk con]. simpl. intros -> Hin Hpure Hlk.
  unfold compressFile_io, getline, readFile. simpl. rewrite Hin, Hpure.
  rewrite bind_Ok. simpl. unfold writeFile. simpl.
  rewrite bool_decide_eq_false_2 by exact Hlk. reflexivity.
Qed.

Lemma decompressFile_io_written sched hw w inF outF rest data log out :
  stdin w = inF :: outF :: rest -> files w !! inF = Some data ->
  decompressFile sched hw data = Ok (Outcome log (Some out)) ->
  outF ∉ locked w ->
  decompressFile_io sched hw w
  = Ok (World rest (<[outF := out]> (files w)) (locked w)
          (console w ++ (Report <$> log))).
Proof.
  destruct w as [input fs lk con]. simpl. intros -> Hin Hpure Hlk.
  unfold decompressFile_io, getline, readFile. simpl. rewrite Hin, Hpure.
  rewrite bind_Ok. simpl. unfold writeFile. simpl.
  rewrite bool_decide_eq_false_2 by exact Hlk. reflexivity.
Qed.

(** What is written for a non-empty buffer decodes to the buffer. *)
Lemma container_decodes sched1 sched2 hw1 hw2 (B : list char) :
  B <> [] -> size B < max_size ->
  0 <= hw1 < 2 ^ 32 -> 0 <= hw2 < 2 ^ 32 ->
  schedule (numThreads hw1) sched1 -> schedule (numThreads hw2) sched2 ->
  exists c,
    compressFile sched1 hw1 B = Ok (Outcome [] (Some c)) /\
    decompressFile sched2 hw2 c = Ok (Outcome [] (Some B)).
Proof.
  intros Hne Hsize Hhw1 Hhw2 Hs1 Hs2.
  assert (fits B) as Hfit by (unfold fits; lia).
  pose proof (numThreads_range hw1 Hhw1) as HW.
  rewrite compressFile_spec by assumption. rewrite Z.geb_leb.
  destruct (Z.leb_spec (size B) (size (encoded (numThreads hw1) B))).
  - exists (chr_U :: B). split; [reflexivity | apply decompressFile_U].
  - exists (chr_C :: encoded (numThreads hw1) B). split; [reflexivity |].
    rewrite decompressFile_C_spec; try assumption.
    + rewrite encoded_expand by assumption. reflexivity.
    + unfold fits. rewrite size_cons. lia.
Qed.

(** X10.  Compressing the file [inF] into [outF] and then decompressing
    [outF] into [backF] leaves in [backF] the bytes that [inF] held, for
    every non-empty content and whether or not some of the three names are
    the same; nothing is printed, the four names are all that is read from
    the input, and no other file changes. *)
Theorem file_roundtrip sched1 sched2 hw1 hw2 (w : world)
    (inF outF backF : string) (rest : list string) (B : list char) :
  stdin w = inF :: outF :: outF :: backF :: rest ->
  files w !! inF = Some B -> B <> [] -> size B < max_size ->
  0 <= hw1 < 2 ^ 32 -> 0 <= hw2 < 2 ^ 32 ->
  schedule (numThreads hw1) sched1 -> schedule (numThreads hw2) sched2 ->
  outF ∉ locked w -> backF ∉ locked w ->
  exists w1 w2,
    compressFile_io sched1 hw1 w = Ok w1 /\
    decompressFile_io sched2 hw2 w1 = Ok w2 /\
    files w2 !! backF = Some B /\
    stdin w2 = rest /\ console w2 = console w /\ locked w2 = locked w /\
    (forall f, f <> outF -> f <> backF -> files w2 !! f = files w !! f).
Proof.
  intros Hin HB Hne Hsize Hhw1 Hhw2 Hs1 Hs2 Hout Hback.
  destruct (container_decodes sched1 sched2 hw1 hw2 B Hne Hsize Hhw1 Hhw2
              Hs1 Hs2) as (c & Henc & Hdec).
  eexists _, _.
  split; [exact (compressFile_io_written _ _ _ _ _ _ _ _ _ Hin HB Henc Hout) |].
  split.
  { apply (decompressFile_io_written _ _ _ outF backF rest c [] B);
      [reflexivity | apply lookup_insert_eq | exact Hdec | exact Hback]. }
  simpl. rewrite !app_nil_r.
  split; [apply lookup_insert_eq |].
  split; [reflexivity |]. split; [reflexivity |]. split; [reflexivity |].
  intros f Hf1 Hf2. rewrite !lookup_insert_ne by congruence. reflexivity.
Qed.

Lemma file_roundtrip_witness :
  (stdin sample_world = ["a"; "a"; "a"; "b"; "4"]%string /\
   files sample_world !! "a"%string = Some [5; 5; 5; 5; 5; 5] /\
   [5; 5; 5; 5; 5; 5] <> [] /\ size [5; 5; 5; 5; 5; 5] < max_size /\
   0 <= 2 < 2 ^ 32 /\ 0 <= 1 < 2 ^ 32 /\
   schedule (numThreads 2) [1; 0]%nat /\ schedule (numThreads 1) [0]%nat /\
   ("a"%string ∉ locked sample_world) /\ ("b"%string ∉ locked sample_world)) /\
  exists w1 w2,
    compressFile_io [1; 0]%nat 2 sample_world = Ok w1 /\
    decompressFile_io [0]%nat 1 w1 = Ok w2 /\
    files w2 !! "b"%string = Some [5; 5; 5; 5; 5; 5] /\
    stdin w2 = ["4"%string] /\ console w2 = console sample_world /\
    locked w2 = locked sample_world /\
    (forall f, f <> "a"%string -> f <> "b"%string ->
       files w2 !! f = files sample_world !! f).
Proof.
  assert (stdin sample_world = ["a"; "a"; "a"; "b"; "4"]%string) as H1 by reflexivity.
  assert (files sample_world !! "a"%string = Some [5; 5; 5; 5; 5; 5]) as H2
    by apply lookup_singleton_eq.
  assert ([5; 5; 5; 5; 5; 5] <> []) as H3 by discriminate.
  assert (size [5; 5; 5; 5; 5; 5] < max_size) as H4 by (vm_compute; reflexivity).
  assert (0 <= 2 < 2 ^ 32) as H5 by lia.
  assert (0 <= 1 < 2 ^ 32) as H6 by lia.
  assert (schedule (numThreads 2) [1; 0]%nat) as H7
    by (unfold schedule; vm_compute; apply perm_swap).
  assert (schedule (numThreads 1) [0]%nat) as H8
    by (unfold schedule; vm_compute; reflexivity).
  assert ("a"%string ∉ locked sample_world) as H9 by apply not_elem_of_empty.
  assert ("b"%string ∉ locked sample_world) as H10 by apply not_elem_of_empty.
  split; [auto 15 |].
  apply (file_roundtrip [1; 0]%nat [0]%nat 2 1 sample_world "a" "a" "b" ["4"%string]
           [5; 5; 5; 5; 5; 5] H1 H2 H3 H4 H5 H6 H7 H8 H9 H10).
Defined.

(** ** The menu *)

Lemma main_loop_S scheds hw fuel n w :
  main_loop scheds hw (S fuel) n w =
  let '(choiceStr, w1) := getline w in
  if String.eqb choiceStr "1" then
    main_loop scheds hw fuel (S n) (createFile w1)
  else if String.eqb choiceStr "2" then
    w2 ← compressFile_io (scheds n) hw w1;
    main_loop scheds hw fuel (S n) w2
  else if String.eqb choiceStr "3" then
    w2 ← decompressFile_io (scheds n) hw w1;
    main_loop scheds hw fuel (S n) w2
  else if String.eqb choiceStr "4" then Ok w1
  else main_loop scheds hw fuel (S n) w1.
Proof. reflexivity. Qed.

(** X11.  A session of the menu that compresses [inF] into [outF],
    decompresses [outF] into [backF] and leaves with the choice 4 returns,
    and [backF] then holds the bytes that [inF] held; nothing is printed
    on the error stream and the input after the choice 4 is not read. *)
Theorem main_roundtrip (scheds : nat -> list nat) (hw : Z) (fuel : nat)
    (w : world) (inF outF backF : string) (rest : list string)
    (B : list char) :
  stdin w = ["2"; inF; outF; "3"; outF; backF; "4"]%string ++ rest ->
  files w !! inF = Some B -> B <> [] -> size B < max_size ->
  0 <= hw < 2 ^ 32 -> (forall n, schedule (numThreads hw) (scheds n)) ->
  (outF ∉ locked w) -> (backF ∉ locked w) -> (3 <= fuel)%nat ->
  exists w',
    main scheds hw fuel w = Ok w' /\
    files w' !! backF = Some B /\
    stdin w' = rest /\ console w' = console w /\
    (forall f, f <> outF -> f <> backF -> files w' !! f = files w !! f).
Proof.
  intros Hin HB Hne Hsize Hhw Hsched Hout Hback Hfuel.
  destruct (container_decodes (scheds 0%nat) (scheds 1%nat) hw hw B Hne Hsize
              Hhw Hhw (Hsched _) (Hsched _)) as (c & Henc & Hdec).
  destruct fuel as [| [| [| fuel]]]; try lia.
  destruct w as [input fs lk con]. simpl in *. subst input.
  eexists. split.
  - unfold main. rewrite main_loop_S. unfold getline at 1. cbn [stdin].
    cbn [String.eqb Ascii.eqb Bool.eqb files locked console]. cbv iota beta.
    erewrite compressFile_io_written;
      [| reflexivity | exact HB | exact Henc | exact Hout].
    rewrite bind_Ok, main_loop_S. unfold getline at 1. cbn [stdin].
    cbn [String.eqb Ascii.eqb Bool.eqb files locked console]. cbv iota beta.
    erewrite decompressFile_io_written;
      [| reflexivity | apply lookup_insert_eq | exact Hdec | exact Hback].
    rewrite bind_Ok, main_loop_S. unfold getline at 1. cbn [stdin].
    cbn [String.eqb Ascii.eqb Bool.eqb files locked console]. cbv iota beta.
    reflexivity.
  - simpl. rewrite !app_nil_r.
    split; [apply lookup_insert_eq |].
    split; [reflexivity |]. split; [reflexivity |].
    intros f Hf1 Hf2. rewrite !lookup_insert_ne by congruence. reflexivity.
Qed.

Lemma main_roundtrip_witness :
  (stdin sample_session
   = ["2"; "a"; "z"; "3"; "z"; "b"; "4"]%string ++ ["1"%string] /\
   files sample_session !! "a"%string = Some [5; 5; 5; 5; 5; 5] /\
   [5; 5; 5; 5; 5; 5] <> [] /\ size [5; 5; 5; 5; 5; 5] < max_size /\
   0 <= 0 < 2 ^ 32 /\ (forall n : nat, schedule (numThreads 0) [1; 0]%nat) /\
   ("z"%string ∉ locked sample_session) /\
   ("b"%string ∉ locked sample_session) /\ (3 <= 5)%nat) /\
  exists w',
    main (fun _ => [1; 0]%nat) 0 5 sample_session = Ok w' /\
    files w' !! "b"%string = Some [5; 5; 5; 5; 5; 5] /\
    stdin w' = ["1"%string] /\
    console w' = console sample_session /\
    (forall f, f <> "z"%string -> f <> "b"%string ->
       files w' !! f = files sample_session !! f).
Proof.
  assert (stdin sample_session
          = ["2"; "a"; "z"; "3"; "z"; "b"; "4"]%string ++ ["1"%string]) as H1
    by reflexivity.
  assert (files sample_session !! "a"%string = Some [5; 5; 5; 5; 5; 5]) as H2
    by apply lookup_singleton_eq.
  assert ([5; 5; 5; 5; 5; 5] <> []) as H3 by discriminate.
  assert (size [5; 5; 5; 5; 5; 5] < max_size) as H4 by (vm_compute; reflexivity).
  assert (0 <= 0 < 2 ^ 32) as H5 by lia.
  assert (forall n : nat, schedule (numThreads 0) [1; 0]%nat) as H6
    by (intros n; unfold schedule; vm_compute; apply perm_swap).
  assert ("z"%string ∉ locked sample_session) as H7 by apply not_elem_of_empty.
  assert ("b"%string ∉ locked sample_session) as H8 by apply not_elem_of_empty.
  assert (3 <= 5)%nat as H9 by lia.
  split; [auto 15 |].
  apply (main_roundtrip (fun _ => [1; 0]%nat) 0 5 sample_session
           "a" "z" "b" ["1"%string] [5; 5; 5; 5; 5; 5]
           H1 H2 H3 H4 H5 H6 H7 H8 H9).
Defined.

(** ** Leaving the menu *)

Lemma getline_suffix w : stdin (getline w).2 `suffix_of` stdin w.
Proof.
  destruct w as [[| l input] fs lk con]; simpl; [reflexivity |].
  apply suffix_cons_r. reflexivity.
Qed.

Lemma getline_choice w :
  (getline w).1 = EmptyString \/ (getline w).1 ∈ stdin w.
Proof.
  destruct w as [[| l input] fs lk con]; simpl; [left; reflexivity |].
  right. left.
Qed.

Lemma read_lines_suffix input out : (read_lines input out).2 `suffix_of` input.
Proof.
  revert out. induction input as [| l input IH]; intros out; simpl.
  - reflexivity.
  - destruct (String.eqb l EmptyString); simpl.
    + apply suffix_cons_r. reflexivity.
    + apply suffix_cons_r. apply IH.
Qed.

Lemma createFile_suffix w : stdin (createFile w) `suffix_of` stdin w.
Proof.
  unfold createFile. pose proof (getline_suffix w) as Hg.
  destruct (getline w) as [filename w1]. simpl in Hg.
  destruct (bool_decide (filename ∈ locked w1)); [exact Hg |].
  pose proof (read_lines_suffix (stdin w1) []) as Hr.
  destruct (read_lines (stdin w1) []) as [text rest]. simpl in *.
  etrans; [exact Hr | exact Hg].
Qed.

Lemma readFile_stdin filename w : stdin (readFile filename w).2 = stdin w.
Proof. unfold readFile. destruct (files w !! filename); reflexivity. Qed.

Lemma writeFile_stdin filename data w :
  stdin (writeFile filename data w).2 = stdin w.
Proof.
  unfold writeFile. destruct (bool_decide (filename ∈ locked w)); reflexivity.
Qed.

(** After reading the name of the input, reading the file, printing, and
    perhaps reading the name of the output and writing, what is left of the
    input is an end of what there was. *)
Lemma file_operation_suffix (pure : list char -> result outcome)
    (failed : message) (w w' : world) :
  (let '(inFile, w1) := getline w in
   let '(data, w2) := readFile inFile w1 in
   o ← pure data;
   let w3 := print (Report <$> cerr o) w2 in
   match written o with
   | None => Ok w3
   | Some bytes_out =>
       let '(outFile, w4) := getline w3 in
       let '(ok, w5) := writeFile outFile bytes_out w4 in
       if ok then Ok w5 else Ok (print [failed] w5)
   end) = Ok w' ->
  stdin w' `suffix_of` stdin w.
Proof.
  pose proof (getline_suffix w) as Hg.
  destruct (getline w) as [inFile w1]. simpl in Hg.
  pose proof (readFile_stdin inFile w1) as Hr.
  destruct (readFile inFile w1) as [data w2]. simpl in Hr.
  destruct (pure data) as [o | |]; [| discriminate | discriminate].
  rewrite bind_Ok. cbv zeta.
  destruct (written o) as [bytes_out |].
  - pose proof (getline_suffix (print (Report <$> cerr o) w2)) as Hg2.
    destruct (getline (print (Report <$> cerr o) w2)) as [outFile w4].
    pose proof (writeFile_stdin outFile bytes_out w4) as Hw.
    destruct (writeFile outFile bytes_out w4) as [ok w5]. simpl in *.
    destruct ok; intros [= <-]; simpl; rewrite Hw;
      (etrans; [exact Hg2 |]); rewrite Hr; exact Hg.
  - intros [= <-]. simpl. rewrite Hr. exact Hg.
Qed.

Lemma main_loop_stays scheds hw fuel n w w' :
  ("4"%string ∉ stdin w) -> main_loop scheds hw fuel n w <> Ok w'.
Proof.
  revert n w. induction fuel as [| fuel IH]; intros n w Hno; [discriminate |].
  rewrite main_loop_S.
  pose proof (getline_suffix w) as Hg. pose proof (getline_choice w) as Hc.
  destruct (getline w) as [choiceStr w1]. simpl in Hg, Hc.
  assert ("4"%string ∉ stdin w1) as Hno1
    by (intros Hin; apply Hno; exact (elem_of_suffix _ _ _ Hin Hg)).
  destruct (String.eqb choiceStr "1").
  { apply IH. intros Hin. apply Hno1.
    exact (elem_of_suffix _ _ _ Hin (createFile_suffix w1)). }
  destruct (String.eqb choiceStr "2").
  { destruct (compressFile_io (scheds n) hw w1) as [w2 | |] eqn:Hop;
      [| discriminate | discriminate].
    rewrite bind_Ok. apply IH. intros Hin. apply Hno1.
    exact (elem_of_suffix _ _ _ Hin
             (file_operation_suffix _ FailedWriteCompressed _ _ Hop)). }
  destruct (String.eqb choiceStr "3").
  { destruct (decompressFile_io (scheds n) hw w1) as [w2 | |] eqn:Hop;
      [| discriminate | discriminate].
    rewrite bind_Ok. apply IH. intros Hin. apply Hno1.
    exact (elem_of_suffix _ _ _ Hin
             (file_operation_suffix _ FailedWriteDecompressed _ _ Hop)). }
  destruct (String.eqb choiceStr "4") eqn:H4.
  { apply String.eqb_eq in H4. subst choiceStr.
    destruct Hc as [Hc | Hc]; [discriminate | contradiction]. }
  apply IH. exact Hno1.
Qed.

(** X12.  The menu is left only by reading the choice 4.  When the choice 4
    is the next line, [main] returns at once and changes nothing but the
    input.  When no line of the input is the choice 4, and in particular
    when the input is at its end, [main] never returns, however many
    choices it is allowed to read: at the end of the input every choice is
    read as an empty line, which is an invalid choice. *)
Theorem main_exit (scheds : nat -> list nat) (hw : Z) (fuel : nat)
    (w w' : world) (rest : list string) :
  (stdin w = "4"%string :: rest ->
   main scheds hw (S fuel) w = Ok (World rest (files w) (locked w) (console w))) /\
  (("4"%string ∉ stdin w) -> main scheds hw fuel w <> Ok w') /\
  (stdin w = [] -> main scheds hw fuel w <> Ok w').
Proof.
  split; [| split].
  - intros Hin. destruct w as [input fs lk con]. simpl in *. subst input.
    reflexivity.
  - intros Hno. apply main_loop_stays. exact Hno.
  - intros Hnil. apply main_loop_stays. rewrite Hnil. apply not_elem_of_nil.
Qed.

Lemma main_exit_witness :
  (stdin (World ["9"; "1"]%string ∅ {["1"%string]} []) = [] ->
   main (fun _ => [0; 1]%nat) 0 7 (World ["9"; "1"]%string ∅ {["1"%string]} [])
   <> Ok (World [] ∅ ∅ [])) /\
  (("4"%string ∉ stdin (World ["9"; "1"]%string ∅ {["1"%string]} [])) /\
   main (fun _ => [0; 1]%nat) 0 7 (World ["9"; "1"]%string ∅ {["1"%string]} [])
   <> Ok (World [] ∅ ∅ [])).
Proof.
  destruct (main_exit (fun _ => [0; 1]%nat) 0 7
              (World ["9"; "1"]%string ∅ {["1"%string]} [])
              (World [] ∅ ∅ []) []) as (_ & Hstay & Hend).
  assert ("4"%string ∉ stdin (World ["9"; "1"]%string ∅ {["1"%string]} [])) as Hno.
  { simpl. intros Hin. apply elem_of_cons in Hin as [Hin | Hin]; [discriminate |].
    apply list_elem_of_singleton in Hin. discriminate. }
  split; [exact Hend |]. split; [exact Hno | exact (Hstay Hno)].
Defined.

(** ** Refusals *)

(** X13.  [compressFile] refuses a missing input and an empty input: it
    prints its diagnostics, asks for no output name (the next line of the
    input is left to be read as a menu choice) and touches no file.  When
    the output cannot be opened the two names are read, the diagnostic is
    printed and no file changes. *)
Theorem compress_refusals sched hw (w : world) (inF outF : string)
    (rest : list string) (B : list char) :
  (stdin w = inF :: rest -> files w !! inF = None ->
   compressFile_io sched hw w
   = Ok (World rest (files w) (locked w)
           (console w ++ [FailedToOpen inF; Report EmptyInput]))) /\
  (stdin w = inF :: rest -> files w !! inF = Some [] ->
   compressFile_io sched hw w
   = Ok (World rest (files w) (locked w) (console w ++ [Report EmptyInput]))) /\
  (stdin w = inF :: outF :: rest -> files w !! inF = Some B ->
   B <> [] -> fits B -> 0 <= hw < 2 ^ 32 -> schedule (numThreads hw) sched ->
   outF ∈ locked w ->
   compressFile_io sched hw w
   = Ok (World rest (files w) (locked w)
           (console w ++ [FailedWriteCompressed]))).
Proof.
  destruct w as [input fs lk con]. simpl.
  split; [| split].
  - intros -> Hin. unfold compressFile_io, getline, readFile. simpl.
    rewrite Hin. simpl. unfold print. simpl.
    rewrite <- app_assoc. reflexivity.
  - intros -> Hin. unfold compressFile_io, getline, readFile. simpl.
    rewrite Hin. reflexivity.
  - intros -> Hin Hne Hfit Hhw Hsched Hlk.
    unfold compressFile_io, getline, readFile. simpl. rewrite Hin.
    rewrite compressFile_spec by assumption. rewrite bind_Ok. simpl.
    unfold writeFile. simpl. rewrite bool_decide_eq_true_2 by exact Hlk.
    unfold print. simpl. rewrite app_nil_r. reflexivity.
Qed.

Lemma compress_refusals_witness :
  (stdin (World ["nofile"; "4"]%string ∅ ∅ []) = ["nofile"; "4"]%string /\
   files (World ["nofile"; "4"]%string ∅ ∅ []) !! "nofile"%string = None) /\
  compressFile_io [0; 1]%nat 0 (World ["nofile"; "4"]%string ∅ ∅ [])
  = Ok (World ["4"%string] ∅ ∅ [FailedToOpen "nofile"; Report EmptyInput]).
Proof.
  assert (stdin (World ["nofile"; "4"]%string ∅ ∅ []) = ["nofile"; "4"]%string)
    as H1 by reflexivity.
  assert (files (World ["nofile"; "4"]%string ∅ ∅ []) !! "nofile"%string = None)
    as H2 by apply lookup_empty.
  split; [auto |].
  destruct (compress_refusals [0; 1]%nat 0 (World ["nofile"; "4"]%string ∅ ∅ [])
              "nofile" "4" ["4"%string] []) as (Hmissing & _ & _).
  exact (Hmissing H1 H2).
Defined.

(** X14.  [decompressFile] refuses a missing input, an empty input and an
    input whose first byte is neither ['C'] nor ['U']: it prints its
    diagnostics, asks for no output name and touches no file.  When the
    output cannot be opened the two names are read, the diagnostic is
    printed and no file changes. *)
Theorem decompress_refusals sched hw (w : world) (inF outF : string)
    (rest : list string) (h : char) (payload : list char) :
  (stdin w = inF :: rest -> files w !! inF = None ->
   decompressFile_io sched hw w
   = Ok (World rest (files w) (locked w)
           (console w ++ [FailedToOpen inF; Report EmptyContainer]))) /\
  (stdin w = inF :: rest -> files w !! inF = Some [] ->
   decompressFile_io sched hw w
   = Ok (World rest (files w) (locked w)
           (console w ++ [Report EmptyContainer]))) /\
  (stdin w = inF :: rest -> files w !! inF = Some (h :: payload) ->
   h <> chr_C -> h <> chr_U ->
   decompressFile_io sched hw w
   = Ok (World rest (files w) (locked w)
           (console w ++ [Report UnknownHeader]))) /\
  (stdin w = inF :: outF :: rest -> files w !! inF = Some (h :: payload) ->
   h = chr_C \/ h = chr_U -> fits (h :: payload) ->
   0 <= hw < 2 ^ 32 -> schedule (numThreads hw) sched ->
   outF ∈ locked w ->
   decompressFile_io sched hw w
   = Ok (World rest (files w) (locked w)
           (console w ++ [FailedWriteDecompressed]))).
Proof.
  destruct w as [input fs lk con]. simpl.
  split; [| split; [| split]].
  - intros -> Hin. unfold decompressFile_io, getline, readFile. simpl.
    rewrite Hin. simpl. unfold print. simpl.
    rewrite <- app_assoc. reflexivity.
  - intros -> Hin. unfold decompressFile_io, getline, readFile. simpl.
    rewrite Hin. reflexivity.
  - intros -> Hin HC HU. unfold decompressFile_io, getline, readFile. simpl.
    rewrite Hin.
    assert (decompressFile sched hw (h :: payload)
            = Ok (Outcome [UnknownHeader] None)) as ->.
    { unfold decompressFile. rewrite size_cons.
      pose proof (size_nonneg payload).
      destruct (Z.ltb_spec (1 + size payload) 1); [lia |].
      unfold at_. simpl.
      destruct (Z.eqb_spec h chr_C); [contradiction |].
      destruct (Z.eqb_spec h chr_U); [contradiction |]. reflexivity. }
    reflexivity.
  - intros -> Hin Hh Hfit Hhw Hsched Hlk.
    unfold decompressFile_io, getline, readFile. simpl. rewrite Hin.
    assert (exists out, decompressFile sched hw (h :: payload)
                        = Ok (Outcome [] (Some out))) as [out ->].
    { destruct Hh as [-> | ->].
      - eexists. apply decompressFile_C_spec; assumption.
      - eexists. apply decompressFile_U. }
    rewrite bind_Ok. simpl.
    unfold writeFile. simpl. rewrite bool_decide_eq_true_2 by exact Hlk.
    unfold print. simpl. rewrite app_nil_r. reflexivity.
Qed.

Lemma decompress_refusals_witness :
  (stdin (World ["x"; "4"]%string {["x"%string := [88; 1; 2]]} ∅ [])
   = ["x"; "4"]%string /\
   files (World ["x"; "4"]%string {["x"%string := [88; 1; 2]]} ∅ [])
     !! "x"%string = Some [88; 1; 2] /\
   88 <> chr_C /\ 88 <> chr_U) /\
  decompressFile_io [0; 1]%nat 0
    (World ["x"; "4"]%string {["x"%string := [88; 1; 2]]} ∅ [])
  = Ok (World ["4"%string] {["x"%string := [88; 1; 2]]} ∅
          [Report UnknownHeader]).
Proof.
  assert (stdin (World ["x"; "4"]%string {["x"%string := [88; 1; 2]]} ∅ [])
          = ["x"; "4"]%string) as H1 by reflexivity.
  assert (files (World ["x"; "4"]%string {["x"%string := [88; 1; 2]]} ∅ [])
            !! "x"%string = Some [88; 1; 2]) as H2
    by apply lookup_singleton_eq.
  assert (88 <> chr_C) as H3 by discriminate.
  assert (88 <> chr_U) as H4 by discriminate.
  split; [auto |].
  destruct (decompress_refusals [0; 1]%nat 0
              (World ["x"; "4"]%string {["x"%string := [88; 1; 2]]} ∅ [])
              "x" "4" ["4"%string] 88 [1; 2]) as (_ & _ & Hbad & _).
  exact (Hbad H1 H2 H3 H4).
Defined.

(** ** Buffers that are stored compressed *)

(** X15.  When the code of a buffer encoded as one chunk is shorter than
    the buffer by more than the two bytes that each of the chunk
    boundaries can cost, the container written has the header ['C'] and a
    payload shorter than the buffer. *)
Theorem compressed_when_short sched hw (B single : list char) :
  fits B -> 0 <= hw < 2 ^ 32 -> schedule (numThreads hw) sched ->
  compressRLEChunk B 0 (size B) = Ok single ->
  size single + 2 * (numThreads hw - 1) < size B ->
  exists payload,
    compressFile sched hw B = Ok (Outcome [] (Some (chr_C :: payload))) /\
    size payload < size B.
Proof.
  intros Hfit Hhw Hsched Hsingle Hshort.
  pose proof (numThreads_range hw Hhw) as HW.
  rewrite compressRLEChunk_whole in Hsingle by exact Hfit.
  inversion Hsingle; subst single.
  assert (B <> []) as Hne.
  { intros ->. change (size (rle [])) with 0 in Hshort.
    change (size []) with 0 in Hshort. lia. }
  pose proof (rle_concat_upper (chunks_of (numThreads hw) B)) as Hup.
  rewrite concat_chunks_of, chunks_of_length in Hup by assumption.
  fold (encoded (numThreads hw) B) in Hup.
  exists (encoded (numThreads hw) B).
  rewrite compressFile_spec by assumption. rewrite Z.geb_leb.
  destruct (Z.leb_spec (size B) (size (encoded (numThreads hw) B))); [lia |].
  split; [reflexivity | lia].
Qed.

Lemma compressed_when_short_witness :
  (fits (replicate 12 7) /\ 0 <= 3 < 2 ^ 32 /\
   schedule (numThreads 3) [2; 1; 0]%nat /\
   compressRLEChunk (replicate 12 7) 0 (size (replicate 12 7)) = Ok [7; 12] /\
   size [7; 12] + 2 * (numThreads 3 - 1) < size (replicate 12 7)) /\
  exists payload,
    compressFile [2; 1; 0]%nat 3 (replicate 12 7)
    = Ok (Outcome [] (Some (chr_C :: payload))) /\
    size payload < size (replicate 12 7).
Proof.
  assert (fits (replicate 12 7)) as H1 by (unfold fits; vm_compute; discriminate).
  assert (0 <= 3 < 2 ^ 32) as H2 by lia.
  assert (schedule (numThreads 3) [2; 1; 0]%nat) as H3.
  { unfold schedule. vm_compute.
    change [2; 1; 0]%nat with (reverse [0; 1; 2]%nat).
    apply reverse_Permutation. }
  assert (compressRLEChunk (replicate 12 7) 0 (size (replicate 12 7))
          = Ok [7; 12]) as H4 by reflexivity.
  assert (size [7; 12] + 2 * (numThreads 3 - 1) < size (replicate 12 7)) as H5
    by (vm_compute; reflexivity).
  split; [auto 10 |].
  apply (compressed_when_short [2; 1; 0]%nat 3 (replicate 12 7) [7; 12]
           H1 H2 H3 H4 H5).
Defined.
